(** * HomeReplication: the state-machine store and its free-pba journal

    A shallow embedding of [src/lib/storage/home_storage_engine.cpp]
    (class [HomeStateMachineStore]): the in-memory superblock, the
    serialisation of free-pba records, and the journal operations built on
    the homestore log store (append, range replay, truncate, flush). *)

From Stdlib Require Import ZArith Lia List.
From coqutil Require Import Byte Word.LittleEndianList.
From stdpp Require Import gmap list sorting.
Local Open Scope Z_scope.

(** ** Fixed-width integers

    [uint32_t] and [uint64_t] values are integers reduced modulo [2^32] and
    [2^64]; [int64_t] arithmetic is written with the two's-complement
    wrap-around that the compiled code performs. *)

Definition uint32_cast (z : Z) : Z := z mod 2 ^ 32.

Definition min_int64 : Z := - 2 ^ 63.
Definition max_int64 : Z := 2 ^ 63 - 1.

Definition int64_wrap (z : Z) : Z := (z + 2 ^ 63) mod 2 ^ 64 - 2 ^ 63.

Definition is_int64 (z : Z) : Prop := min_int64 <= z <= max_int64.
Definition is_uint64 (z : Z) : Prop := 0 <= z < 2 ^ 64.

(** Modelled from the spec: [repl_lsn_t] and [store_lsn_t] are declared in
    [home_replication/repl_decls.h] and in homestore; the superblock layout
    gives [commit_lsn] as a signed 64-bit integer and the listener callbacks
    take [int64_t lsn], so both are signed 64-bit integers here. *)
Abbreviation repl_lsn_t := Z (only parsing).
Abbreviation store_lsn_t := Z (only parsing).

(** [typedef uint64_t pba_t] and
    [typedef folly::small_vector< pba_t, 4 > pba_list_t]. *)
Abbreviation pba_t := Z (only parsing).
Abbreviation pba_list_t := (list Z) (only parsing).

Definition to_store_lsn (raft_lsn : repl_lsn_t) : store_lsn_t :=
  int64_wrap (raft_lsn - 1).

Definition to_repl_lsn (store_lsn : store_lsn_t) : repl_lsn_t :=
  int64_wrap (store_lsn + 1).

(** ** Raw buffers

    A [sisl::io_blob] (and a [homestore::log_buffer]) is a run of bytes
    accessed through casted raw pointers.  An access that does not lie
    within the buffer has no defined result: it is [None] here. *)
Module Blob.

Definition t := list byte.

(** [sisl::io_blob b{size, 0}]: [size] freshly allocated bytes.  What
    they hold at first is immaterial: the serialiser writes every byte
    of the buffer. *)
Definition alloc (size : Z) : t := repeat Byte.x00 (Z.to_nat size).

Definition store (off : nat) (bs : list byte) (b : t) : option t :=
  if decide (off + length bs <= length b)%nat
  then Some (take off b ++ bs ++ drop (off + length bs) b)
  else None.

Definition load (off n : nat) (b : t) : option (list byte) :=
  if decide (off + n <= length b)%nat
  then Some (take n (drop off b))
  else None.

(** [*(r_cast< uint32_t* >(p)) = v] and [*(r_cast< uint64_t* >(p)) = v]
    on a little-endian host. *)
Definition store_u32 (off : nat) (v : Z) (b : t) : option t :=
  store off (le_split 4 v) b.
Definition store_u64 (off : nat) (v : Z) (b : t) : option t :=
  store off (le_split 8 v) b.

Definition load_u32 (off : nat) (b : t) : option Z :=
  le_combine <$> load off 4 b.
Definition load_u64 (off : nat) (b : t) : option Z :=
  le_combine <$> load off 8 b.

End Blob.

(** ** Free-pba record serialisation (the body of [add_free_pba_record])

<<
    uint32_t size_needed = sizeof(uint32_t) + (pbas.size() * sizeof(pba_t));
    sisl::io_blob b{size_needed, 0};
    *(r_cast< uint32_t* >(b.bytes)) = uint32_cast(pbas.size());
    pba_t* raw_ptr = r_cast< pba_t* >(b.bytes + sizeof(uint32_t));
    for (const auto pba : pbas) { *raw_ptr = pba; ++raw_ptr; }
>> *)

Definition size_needed (pbas : pba_list_t) : Z :=
  uint32_cast (4 + Z.of_nat (length pbas) * 8).

Fixpoint write_pbas (raw_ptr : nat) (pbas : pba_list_t) (b : Blob.t)
  : option Blob.t :=
  match pbas with
  | [] => Some b
  | pba :: rest =>
      match Blob.store_u64 raw_ptr pba b with
      | Some b' => write_pbas (raw_ptr + 8) rest b'
      | None => None
      end
  end.

Definition serialize_pbas (pbas : pba_list_t) : option Blob.t :=
  let b := Blob.alloc (size_needed pbas) in
  match Blob.store_u32 0 (uint32_cast (Z.of_nat (length pbas))) b with
  | Some b' => write_pbas 4 pbas b'
  | None => None
  end.

(** ** Free-pba record decoding (the visitor body of [get_free_pba_records])

<<
    pba_list_t plist;
    uint32_t num_pbas = *(r_cast< uint32_t* >(entry.bytes()));
    pba_t* raw_ptr = r_cast< pba_t* >(entry.bytes() + sizeof(uint32_t));
    for (uint32_t i{0}; i < num_pbas; ++i) { plist.push_back(raw_ptr[0]); ++raw_ptr; }
>> *)

Fixpoint read_pbas (num_pbas : nat) (raw_ptr : nat) (entry : Blob.t)
  : option pba_list_t :=
  match num_pbas with
  | O => Some []
  | S n =>
      match Blob.load_u64 raw_ptr entry with
      | Some pba =>
          match read_pbas n (raw_ptr + 8) entry with
          | Some plist => Some (pba :: plist)
          | None => None
          end
      | None => None
      end
  end.

Definition deserialize_pbas (entry : Blob.t) : option pba_list_t :=
  match Blob.load_u32 0 entry with
  | Some num_pbas => read_pbas (Z.to_nat num_pbas) 4 entry
  | None => None
  end.

(** The layout the serialiser is meant to produce: count, then the pbas. *)
Definition record_layout (pbas : pba_list_t) : list byte :=
  le_split 4 (Z.of_nat (length pbas)) ++ flat_map (le_split 8) pbas.

(** ** The homestore log store

    Modelled from the spec: [homestore::HomeLogStore] ([write_async],
    [foreach], [truncate], [flush_sync]) belongs to the homestore library,
    a dependency of the repository.  The model follows the collaborator
    contract of the specification: a store indexed by LSN; [foreach] visits
    the records from a start LSN on in LSN order for as long as the visitor
    returns [true]; [truncate] removes the records up to and including an
    LSN; [flush_sync] makes the records up to an LSN durable and does
    nothing for the invalid sentinel LSN.  The calls received are kept in
    [calls], in order.  The specification leaves open whether a write at
    an LSN that already holds a record replaces it or is dropped; here it
    replaces it, and the round trip of an append through a replay is
    stated for an LSN that holds no record yet, where the two agree. *)
Module LogStore.

Inductive call :=
| WriteAsync (lsn : store_lsn_t) (b : Blob.t)
| Truncate (upto_lsn : store_lsn_t)
| FlushSync (upto_lsn : store_lsn_t).

Record t := mk {
  records : gmap Z Blob.t;
  durable : gset Z;
  calls : list call
}.

Definition empty : t := mk ∅ ∅ [].

Definition write_async (lsn : store_lsn_t) (b : Blob.t) (ls : t) : t :=
  mk (<[lsn := b]> (records ls))
     (durable ls ∖ {[lsn]})
     (calls ls ++ [WriteAsync lsn b]).

Definition truncate (upto_lsn : store_lsn_t) (ls : t) : t :=
  mk (filter (λ kv, upto_lsn < kv.1) (records ls))
     (filter (λ k, upto_lsn < k) (durable ls))
     (calls ls ++ [Truncate upto_lsn]).

Definition flush_sync (invalid_lsn : store_lsn_t) (upto_lsn : store_lsn_t)
    (ls : t) : t :=
  mk (records ls)
     (if decide (upto_lsn = invalid_lsn) then durable ls
      else durable ls ∪ filter (λ k, k ≤ upto_lsn) (dom (records ls)))
     (calls ls ++ [FlushSync upto_lsn]).

Definition lsn_le (x y : Z * Blob.t) : Prop := x.1 ≤ y.1.

#[global] Instance lsn_le_dec : RelDecision lsn_le.
Proof. intros x y. unfold lsn_le. apply _. Defined.

(** The records at or after [start_lsn], in LSN order. *)
Definition entries_from (start_lsn : store_lsn_t) (ls : t)
  : list (Z * Blob.t) :=
  merge_sort lsn_le
    (filter (λ kv, start_lsn ≤ kv.1) (map_to_list (records ls))).

(** The visitor threads the state [A] of its captures; it answers
    whether to go on, or [None] when its body has no defined result. *)
Fixpoint iterate {A} (es : list (Z * Blob.t))
    (cb : store_lsn_t → Blob.t → A → option (bool * A)) (a : A) : option A :=
  match es with
  | [] => Some a
  | (lsn, entry) :: rest =>
      match cb lsn entry a with
      | Some (true, a') => iterate rest cb a'
      | Some (false, a') => Some a'
      | None => None
      end
  end.

Definition foreach {A} (start_lsn : store_lsn_t)
    (cb : store_lsn_t → Blob.t → A → option (bool * A)) (ls : t) (a : A)
  : option A :=
  iterate (entries_from start_lsn ls) cb a.

End LogStore.

(** ** The superblock lock

    [folly::SharedMutexWritePriority m_sb_lock], of which the store only
    ever constructs [ReadHolder]s: a holder takes the lock shared and
    releases it at the end of the scope. *)
Module SharedMutex.

Inductive event := LockShared | UnlockShared.

Record t := mk { readers : nat; history : list event }.

Definition lock_shared (m : t) : t :=
  mk (S (readers m)) (history m ++ [LockShared]).

Definition unlock_shared (m : t) : t :=
  mk (Nat.pred (readers m)) (history m ++ [UnlockShared]).

End SharedMutex.

(** ** The replica-set superblock

    Modelled from the spec: [home_rs_superblk] is declared in
    [home_storage_engine.h]; the fields are those of the superblock
    layout of the specification ([uuid], 16 bytes;
    [commit_lsn], a signed 64-bit integer; [free_pba_store_id], an unsigned
    32-bit integer). *)
Module home_rs_superblk.

Record t := mk {
  uuid : list byte;
  commit_lsn : repl_lsn_t;
  free_pba_store_id : Z
}.

End home_rs_superblk.

(** ** HomeStateMachineStore *)
Module HomeStateMachineStore.

Record t := mk {
  m_sb : home_rs_superblk.t;
  m_sb_in_mem : home_rs_superblk.t;
  m_sb_lock : SharedMutex.t;
  m_free_pba_store : LogStore.t;
  m_last_write_lsn : repl_lsn_t
}.

(** The creating constructor: a fresh superblock for [rs_uuid], a new
    log store (whose id is [store_id]), and the in-memory copy of the
    superblock.  The members it does not assign start at zero. *)
Definition create (rs_uuid : list byte) (store_id : Z) : t :=
  let sb := home_rs_superblk.mk rs_uuid 0 store_id in
  mk sb sb (SharedMutex.mk 0 []) LogStore.empty 0.

(** [pba_list_t alloc_pbas(uint32_t) { return pba_list_t{}; }] *)
Definition alloc_pbas (size : Z) (st : t) : pba_list_t := [].

Definition commit_lsn (lsn : repl_lsn_t) (st : t) : t :=
  let holder := SharedMutex.lock_shared (m_sb_lock st) in
  let sb := m_sb_in_mem st in
  let sb' := home_rs_superblk.mk (home_rs_superblk.uuid sb) lsn
               (home_rs_superblk.free_pba_store_id sb) in
  mk (m_sb st) sb' (SharedMutex.unlock_shared holder)
     (m_free_pba_store st) (m_last_write_lsn st).

Definition get_last_commit_lsn (st : t) : repl_lsn_t * t :=
  let holder := SharedMutex.lock_shared (m_sb_lock st) in
  (home_rs_superblk.commit_lsn (m_sb_in_mem st),
   mk (m_sb st) (m_sb_in_mem st) (SharedMutex.unlock_shared holder)
      (m_free_pba_store st) (m_last_write_lsn st)).

Definition add_free_pba_record (lsn : repl_lsn_t) (pbas : pba_list_t)
    (st : t) : option t :=
  match serialize_pbas pbas with
  | Some b =>
      Some (mk (m_sb st) (m_sb_in_mem st) (m_sb_lock st)
              (LogStore.write_async (to_store_lsn lsn) b (m_free_pba_store st))
              lsn)
  | None => None
  end.

(** The visitor that [get_free_pba_records] hands to [foreach]; [cb] is
    the caller's callback, acting on the caller's state [A]. *)
Definition replay_visitor {A} (end_lsn : repl_lsn_t)
    (cb : repl_lsn_t → pba_list_t → A → A)
    (lsn : store_lsn_t) (entry : Blob.t) (a : A) : option (bool * A) :=
  let rlsn := to_repl_lsn lsn in
  let ret := bool_decide (rlsn < int64_wrap (end_lsn - 1)) in
  if bool_decide (rlsn < end_lsn) then
    match deserialize_pbas entry with
    | Some plist => Some (ret, cb rlsn plist a)
    | None => None
    end
  else Some (ret, a).

Definition get_free_pba_records {A} (start_lsn end_lsn : repl_lsn_t)
    (cb : repl_lsn_t → pba_list_t → A → A) (st : t) (a : A) : option A :=
  LogStore.foreach (to_store_lsn start_lsn) (replay_visitor end_lsn cb)
    (m_free_pba_store st) a.

Definition remove_free_pba_records_upto (lsn : repl_lsn_t) (st : t) : t :=
  mk (m_sb st) (m_sb_in_mem st) (m_sb_lock st)
     (LogStore.truncate (to_store_lsn lsn) (m_free_pba_store st))
     0.

(** [homestore::invalid_lsn()] is a constant of the homestore library:
    it is a parameter here. *)
Definition flush_free_pba_records (invalid_lsn : store_lsn_t) (st : t) : t :=
  let last_lsn := m_last_write_lsn st in
  mk (m_sb st) (m_sb_in_mem st) (m_sb_lock st)
     (LogStore.flush_sync invalid_lsn
        (if bool_decide (last_lsn = 0) then invalid_lsn
         else to_store_lsn last_lsn)
        (m_free_pba_store st))
     (m_last_write_lsn st).

(** *** Observing a replay *)

(** The visitor calls of a replay, in order: the callback that appends
    its arguments to a list. *)
Definition replayed (start_lsn end_lsn : repl_lsn_t) (st : t)
  : option (list (repl_lsn_t * pba_list_t)) :=
  get_free_pba_records start_lsn end_lsn
    (λ lsn pbas acc, acc ++ [(lsn, pbas)]) st [].

(** The store-LSNs at which [foreach] runs the visitor during a replay,
    in order: the visitor (around a callback that does nothing), noting
    each LSN it is run at. *)
Definition noting_visitor (end_lsn : repl_lsn_t)
    (lsn : store_lsn_t) (entry : Blob.t) (seen : list store_lsn_t)
  : option (bool * list store_lsn_t) :=
  match replay_visitor end_lsn (λ _ _ (u : unit), u) lsn entry tt with
  | Some (ret, _) => Some (ret, seen ++ [lsn])
  | None => None
  end.

Definition iterated (start_lsn end_lsn : repl_lsn_t) (st : t)
  : option (list store_lsn_t) :=
  LogStore.foreach (to_store_lsn start_lsn) (noting_visitor end_lsn)
    (m_free_pba_store st) [].

(** *** Sequences of calls *)

Inductive op :=
| CommitLsn (lsn : repl_lsn_t)
| GetLastCommitLsn
| AddFreePbaRecord (lsn : repl_lsn_t) (pbas : pba_list_t)
| RemoveFreePbaRecordsUpto (lsn : repl_lsn_t)
| FlushFreePbaRecords.

Definition step (invalid_lsn : store_lsn_t) (o : op) (st : t) : option t :=
  match o with
  | CommitLsn lsn => Some (commit_lsn lsn st)
  | GetLastCommitLsn => Some (get_last_commit_lsn st).2
  | AddFreePbaRecord lsn pbas => add_free_pba_record lsn pbas st
  | RemoveFreePbaRecordsUpto lsn => Some (remove_free_pba_records_upto lsn st)
  | FlushFreePbaRecords => Some (flush_free_pba_records invalid_lsn st)
  end.

Fixpoint run (invalid_lsn : store_lsn_t) (ops : list op) (st : t)
  : option t :=
  match ops with
  | [] => Some st
  | o :: rest =>
      match step invalid_lsn o st with
      | Some st' => run invalid_lsn rest st'
      | None => None
      end
  end.

Definition is_add (o : op) : bool :=
  match o with AddFreePbaRecord _ _ => true | _ => false end.

End HomeStateMachineStore.

Import HomeStateMachineStore.

(** ** Vocabulary of the statements *)

(** The keys of the log store are store-LSNs whose consensus-LSN
    ([to_repl_lsn]) is representable. *)
Definition lsns_in_range (st : HomeStateMachineStore.t) : Prop :=
  ∀ s, is_Some (LogStore.records (m_free_pba_store st) !! s) →
       min_int64 <= s < max_int64.

(** The records with consensus-LSN in [[start_lsn, end_lsn)] hold a count
    and that many pbas, so that decoding them reads within the entry. *)
Definition decodable (start_lsn end_lsn : repl_lsn_t)
    (st : HomeStateMachineStore.t) : Prop :=
  ∀ s v, LogStore.records (m_free_pba_store st) !! s = Some v →
         start_lsn <= s + 1 < end_lsn → is_Some (deserialize_pbas v).

(** What the journal operations maintain: every key is a store-LSN with a
    representable consensus-LSN and every record decodes. *)
Definition journal_wf (st : HomeStateMachineStore.t) : Prop :=
  ∀ s v, LogStore.records (m_free_pba_store st) !! s = Some v →
         min_int64 <= s < max_int64 ∧ is_Some (deserialize_pbas v).

(** Calls with arguments of the declared types: an LSN whose predecessor
    is representable, pbas that are 64-bit values. *)
Definition op_ok (o : op) : Prop :=
  match o with
  | AddFreePbaRecord lsn pbas =>
      min_int64 < lsn <= max_int64 ∧ Forall is_uint64 pbas
  | _ => True
  end.

Definition key_lt (x y : Z * Blob.t) : Prop := x.1 < y.1.

(** A journal holding the given records: a fresh store to which each is
    appended in turn.  (The sentinel plays no part in appending.) *)
Definition journal_of (recs : list (repl_lsn_t * pba_list_t))
  : option HomeStateMachineStore.t :=
  run 0 (map (λ r, AddFreePbaRecord r.1 r.2) recs) (create [] 0).

(** A thousand pbas that use every byte of a [u64]. *)
Definition seq_pbas (n : nat) : pba_list_t :=
  (λ i, (Z.of_nat i * 2 ^ 56 + 255) mod 2 ^ 64) <$> seq 0 n.

(** The journal of scenario S6: records at the consensus-LSNs 1 to 5. *)
Definition s6_journal : HomeStateMachineStore.t :=
  default (create [] 0)
    (journal_of [(1, [10]); (2, [20; 21]); (3, []); (4, [40]); (5, [50])]).

(** The journal of scenario S5 at the time of the truncation: the records
    up to the checkpoint at 1000 and two records after it. *)
Definition s5_journal : HomeStateMachineStore.t :=
  default (create [] 0)
    (journal_of [(999, [6]); (1000, [7]); (1001, [8]); (1002, [9; 10])]).

(** The visitor calls owed for a run of entries: those below [end_lsn],
    under their consensus-LSN, with the decoded pbas. *)
Definition in_range (end_lsn : repl_lsn_t) (es : list (Z * Blob.t))
  : list (repl_lsn_t * pba_list_t) :=
  omap (λ kv, if bool_decide (kv.1 + 1 < end_lsn)
              then (λ p, (kv.1 + 1, p)) <$> deserialize_pbas kv.2
              else None) es.

Definition deliver {A} (cb : repl_lsn_t → pba_list_t → A → A) (a : A)
    (c : repl_lsn_t * pba_list_t) : A :=
  cb c.1 c.2 a.

(** The entries looked at before the iteration stops: up to and including
    the first one whose consensus-LSN is not below [end_lsn - 1]. *)
Fixpoint upto_stop (end_lsn : repl_lsn_t) (es : list (Z * Blob.t)) : list Z :=
  match es with
  | [] => []
  | (k, _) :: rest =>
      k :: (if bool_decide (k + 1 < end_lsn - 1) then upto_stop end_lsn rest
            else [])
  end.

(** The count a record starts with: the [u32] in its first four bytes. *)
Definition record_count (entry : Blob.t) : Z := le_combine (take 4 entry).

Definition call_lt (x y : repl_lsn_t * pba_list_t) : Prop := x.1 < y.1.

Definition is_commit (o : op) : bool :=
  match o with CommitLsn _ => true | _ => false end.

Definition is_remove (o : op) : bool :=
  match o with RemoveFreePbaRecordsUpto _ => true | _ => false end.

(** Every record of the journal was put there by one of the calls [ops]:
    it sits at the store-LSN of that call's LSN and decodes to that
    call's pbas. *)
Definition journal_from (ops : list op) (st : HomeStateMachineStore.t) : Prop :=
  ∀ s v, LogStore.records (m_free_pba_store st) !! s = Some v →
         min_int64 <= s < max_int64 ∧
         ∃ pbas, In (AddFreePbaRecord (s + 1) pbas) ops ∧
                 deserialize_pbas v = Some pbas.

(** Closed decidable facts about the scenario journals, by evaluation. *)
Ltac by_evaluation :=
  match goal with
  | |- ?P => apply (bool_decide_eq_true_1 P); vm_compute; reflexivity
  end.

(** * Properties *)

(** ** 64-bit arithmetic *)

Lemma int64_wrap_id z : is_int64 z → int64_wrap z = z.
Proof.
  unfold is_int64, int64_wrap, min_int64, max_int64. intros Hz.
  rewrite Z.mod_small; lia.
Qed.

Lemma int64_wrap_range z : is_int64 (int64_wrap z).
Proof.
  unfold is_int64, int64_wrap, min_int64, max_int64.
  pose proof (Z.mod_pos_bound (z + 2 ^ 63) (2 ^ 64)). lia.
Qed.

Lemma to_store_lsn_pred lsn :
  min_int64 < lsn <= max_int64 → to_store_lsn lsn = lsn - 1.
Proof.
  intros H. apply int64_wrap_id. unfold is_int64. lia.
Qed.

Lemma to_repl_lsn_succ s :
  min_int64 <= s < max_int64 → to_repl_lsn s = s + 1.
Proof.
  intros H. apply int64_wrap_id. unfold is_int64. lia.
Qed.

Lemma to_repl_to_store_lsn lsn : is_int64 lsn → to_repl_lsn (to_store_lsn lsn) = lsn.
Proof.
  unfold is_int64, to_repl_lsn, to_store_lsn, int64_wrap, min_int64, max_int64.
  intros H.
  replace ((lsn - 1 + 2 ^ 63) mod 2 ^ 64 - 2 ^ 63 + 1 + 2 ^ 63)
    with ((lsn - 1 + 2 ^ 63) mod 2 ^ 64 + 1) by lia.
  rewrite Zplus_mod_idemp_l.
  replace (lsn - 1 + 2 ^ 63 + 1) with (lsn + 2 ^ 63) by lia.
  rewrite Z.mod_small; lia.
Qed.

(** ** Buffers *)

Lemma blob_store_Some off bs (b : Blob.t) :
  (off + length bs <= length b)%nat →
  Blob.store off bs b = Some (take off b ++ bs ++ drop (off + length bs) b).
Proof. intros H. unfold Blob.store. by rewrite decide_True. Qed.

Lemma blob_store_length off bs (b b' : Blob.t) :
  Blob.store off bs b = Some b' → length b' = length b.
Proof.
  unfold Blob.store. case_decide; [|done]. intros [= <-].
  rewrite !length_app, length_take, length_drop. lia.
Qed.

Lemma blob_store_None off bs (b : Blob.t) :
  (length b < off + length bs)%nat → Blob.store off bs b = None.
Proof. intros H. unfold Blob.store. rewrite decide_False; [done | lia]. Qed.

Lemma blob_load_at (pre bs post : list byte) :
  Blob.load (length pre) (length bs) (pre ++ bs ++ post) = Some bs.
Proof.
  unfold Blob.load. rewrite decide_True.
  - by rewrite drop_app_length, take_app_length.
  - rewrite !length_app. lia.
Qed.

Lemma blob_load_u32_at (pre post : list byte) v :
  0 <= v < 2 ^ 32 →
  Blob.load_u32 (length pre) (pre ++ le_split 4 v ++ post) = Some v.
Proof.
  intros Hv. unfold Blob.load_u32.
  pose proof (blob_load_at pre (le_split 4 v) post) as H.
  rewrite length_le_split in H. rewrite H. simpl.
  rewrite le_combine_split. f_equal. apply Z.mod_small. simpl. lia.
Qed.

Lemma blob_load_u64_at (pre post : list byte) v :
  is_uint64 v →
  Blob.load_u64 (length pre) (pre ++ le_split 8 v ++ post) = Some v.
Proof.
  intros Hv. unfold Blob.load_u64.
  pose proof (blob_load_at pre (le_split 8 v) post) as H.
  rewrite length_le_split in H. rewrite H. simpl.
  rewrite le_combine_split. f_equal. apply Z.mod_small. exact Hv.
Qed.

(** ** Serialising and decoding a record *)

Lemma length_flat_le_split_8 (pbas : list Z) :
  length (flat_map (le_split 8) pbas) = (8 * length pbas)%nat.
Proof.
  induction pbas as [|p pbas IH]; [done|].
  cbn [flat_map length]. rewrite length_app, length_le_split, IH. lia.
Qed.

Lemma record_layout_length (pbas : list Z) :
  length (record_layout pbas) = (4 + 8 * length pbas)%nat.
Proof.
  unfold record_layout.
  by rewrite length_app, length_le_split, length_flat_le_split_8.
Qed.

Lemma write_pbas_Some (pbas : list Z) : ∀ raw_ptr (b : Blob.t),
  (raw_ptr + 8 * length pbas <= length b)%nat →
  write_pbas raw_ptr pbas b =
    Some (take raw_ptr b ++ flat_map (le_split 8) pbas
            ++ drop (raw_ptr + 8 * length pbas) b).
Proof.
  induction pbas as [|p pbas IH]; intros raw_ptr b Hlen.
  - simpl. by rewrite Nat.add_0_r, take_drop.
  - cbn [length] in Hlen. cbn [write_pbas]. unfold Blob.store_u64.
    rewrite blob_store_Some by (rewrite length_le_split; lia).
    rewrite length_le_split.
    set (pre := take raw_ptr b ++ le_split 8 p).
    assert (Hpre : (raw_ptr + 8)%nat = length pre).
    { unfold pre. rewrite length_app, length_take, length_le_split. lia. }
    replace (take raw_ptr b ++ le_split 8 p ++ drop (raw_ptr + 8) b)
      with (pre ++ drop (raw_ptr + 8) b) by (unfold pre; by rewrite <-app_assoc).
    rewrite IH.
    + rewrite (take_app_length' pre _ _ Hpre).
      rewrite (drop_app_add' pre _ _ _ Hpre), drop_drop.
      unfold pre. cbn [flat_map length]. rewrite <-!app_assoc.
      do 5 f_equal. lia.
    + rewrite length_app, <-Hpre, length_drop. lia.
Qed.

Lemma write_pbas_None (pbas : list Z) : ∀ raw_ptr (b : Blob.t),
  (raw_ptr <= length b < raw_ptr + 8 * length pbas)%nat →
  write_pbas raw_ptr pbas b = None.
Proof.
  induction pbas as [|p pbas IH]; intros raw_ptr b Hlen.
  - simpl in Hlen. lia.
  - cbn [write_pbas]. unfold Blob.store_u64, Blob.store.
    rewrite length_le_split. case_decide as Hfit; [|done].
    apply IH. cbn [length] in Hlen.
    rewrite !length_app, length_take, length_le_split, length_drop. lia.
Qed.

Lemma size_needed_small (pbas : list Z) :
  4 + 8 * Z.of_nat (length pbas) < 2 ^ 32 →
  size_needed pbas = 4 + 8 * Z.of_nat (length pbas).
Proof.
  intros H. unfold size_needed, uint32_cast. rewrite Z.mod_small; lia.
Qed.

Lemma serialize_pbas_layout (pbas : list Z) :
  4 + 8 * Z.of_nat (length pbas) < 2 ^ 32 →
  serialize_pbas pbas = Some (record_layout pbas).
Proof.
  intros H. unfold serialize_pbas, Blob.store_u32, Blob.alloc.
  rewrite size_needed_small by done.
  set (n := length pbas) in *.
  replace (Z.to_nat (4 + 8 * Z.of_nat n)) with (4 + 8 * n)%nat by lia.
  rewrite blob_store_Some by (rewrite length_le_split, repeat_length; lia).
  rewrite length_le_split.
  unfold uint32_cast. rewrite Z.mod_small by lia.
  change (take 0 (repeat Byte.x00 (4 + 8 * n))) with (@nil byte).
  rewrite app_nil_l.
  rewrite write_pbas_Some.
  - rewrite (take_app_length' (le_split 4 (Z.of_nat n)))
      by (by rewrite length_le_split).
    rewrite drop_ge.
    + by rewrite app_nil_r.
    + rewrite length_app, length_le_split, length_drop, repeat_length. lia.
  - rewrite length_app, length_le_split, length_drop, repeat_length. lia.
Qed.

Lemma size_needed_ge_4 (pbas : list Z) : 4 <= size_needed pbas < 2 ^ 32.
Proof.
  unfold size_needed, uint32_cast.
  set (n := Z.of_nat (length pbas)).
  assert (Hn : 0 <= n) by lia.
  change (2 ^ 32) with 4294967296.
  pose proof (Z.div_mod (4 + n * 8) 4294967296 ltac:(lia)) as Hdm.
  pose proof (Z.mod_pos_bound (4 + n * 8) 4294967296 ltac:(lia)) as Hb.
  lia.
Qed.

Lemma serialize_pbas_overflow (pbas : list Z) :
  2 ^ 32 <= 4 + 8 * Z.of_nat (length pbas) →
  size_needed pbas < 4 + 8 * Z.of_nat (length pbas) ∧ serialize_pbas pbas = None.
Proof.
  intros H. pose proof (size_needed_ge_4 pbas) as Hs.
  split; [lia|].
  unfold serialize_pbas, Blob.store_u32, Blob.alloc.
  destruct (Blob.store 0 _ _) as [b'|] eqn:Hst; [|done].
  apply blob_store_length in Hst. rewrite repeat_length in Hst.
  apply write_pbas_None. lia.
Qed.

Lemma read_pbas_at (pbas : list Z) : ∀ (pre post : list byte),
  Forall is_uint64 pbas →
  read_pbas (length pbas) (length pre)
    (pre ++ flat_map (le_split 8) pbas ++ post) = Some pbas.
Proof.
  induction pbas as [|p pbas IH]; intros pre post Hall; [done|].
  apply Forall_cons in Hall as [Hp Hall].
  cbn [length read_pbas flat_map]. rewrite <-app_assoc.
  rewrite blob_load_u64_at by done.
  specialize (IH (pre ++ le_split 8 p) post Hall).
  rewrite length_app, length_le_split, <-app_assoc in IH.
  by rewrite IH.
Qed.

Lemma deserialize_record_layout (pbas : list Z) :
  Z.of_nat (length pbas) < 2 ^ 32 →
  Forall is_uint64 pbas →
  deserialize_pbas (record_layout pbas) = Some pbas.
Proof.
  intros Hlen Hall. unfold deserialize_pbas, record_layout.
  pose proof (blob_load_u32_at [] (flat_map (le_split 8) pbas)
                (Z.of_nat (length pbas))) as H32.
  cbn [length app] in H32. rewrite H32 by lia.
  rewrite Nat2Z.id.
  pose proof (read_pbas_at pbas (le_split 4 (Z.of_nat (length pbas))) [] Hall) as H.
  rewrite length_le_split, app_nil_r in H. exact H.
Qed.

(** ** The log store: entries in LSN order *)

#[local] Instance lsn_le_trans : Transitive LogStore.lsn_le.
Proof. intros x y z. unfold LogStore.lsn_le. lia. Qed.

#[local] Instance lsn_le_total : Total LogStore.lsn_le.
Proof. intros x y. unfold LogStore.lsn_le. lia. Qed.

Lemma elem_of_entries_from start ls k v :
  (k, v) ∈ LogStore.entries_from start ls ↔
  LogStore.records ls !! k = Some v ∧ start <= k.
Proof.
  unfold LogStore.entries_from.
  rewrite merge_sort_Permutation, list_elem_of_filter, elem_of_map_to_list.
  simpl. tauto.
Qed.

Lemma entries_from_NoDup start ls :
  NoDup (LogStore.entries_from start ls).*1.
Proof.
  unfold LogStore.entries_from. rewrite merge_sort_Permutation.
  apply (sublist_NoDup _ (map_to_list (LogStore.records ls)).*1).
  - apply NoDup_fst_map_to_list.
  - apply fmap_sublist, sublist_filter.
Qed.

Lemma sorted_NoDup_keys (es : list (Z * Blob.t)) :
  StronglySorted LogStore.lsn_le es → NoDup es.*1 → StronglySorted key_lt es.
Proof.
  induction es as [|x es IH]; intros Hs Hn; [constructor|].
  apply StronglySorted_cons in Hs as [Hall Hs].
  rewrite fmap_cons in Hn. apply NoDup_cons in Hn as [Hx Hn].
  apply StronglySorted_cons. split; [|by apply IH].
  rewrite Forall_forall in Hall. apply Forall_forall. intros y Hy.
  specialize (Hall y Hy). unfold LogStore.lsn_le in Hall. unfold key_lt.
  assert (x.1 ≠ y.1).
  { intros Heq. apply Hx. rewrite Heq. by apply list_elem_of_fmap_2. }
  lia.
Qed.

Lemma entries_from_sorted start ls :
  StronglySorted key_lt (LogStore.entries_from start ls).
Proof.
  apply sorted_NoDup_keys; [|apply entries_from_NoDup].
  unfold LogStore.entries_from. apply StronglySorted_merge_sort; apply _.
Qed.

Lemma entries_from_ext s1 ls1 s2 ls2 :
  (∀ k v, LogStore.records ls1 !! k = Some v ∧ s1 <= k ↔
          LogStore.records ls2 !! k = Some v ∧ s2 <= k) →
  LogStore.entries_from s1 ls1 = LogStore.entries_from s2 ls2.
Proof.
  intros Hext.
  apply (StronglySorted_unique_strong key_lt); try apply entries_from_sorted.
  - unfold key_lt. intros; lia.
  - apply NoDup_Permutation.
    + eapply NoDup_fmap_1, entries_from_NoDup.
    + eapply NoDup_fmap_1, entries_from_NoDup.
    + intros [k v]. rewrite !elem_of_entries_from. apply Hext.
Qed.

(** ** The replay visitor over a run of entries *)

Lemma in_range_nil end_lsn (es : list (Z * Blob.t)) :
  Forall (λ kv, end_lsn <= kv.1 + 1) es → in_range end_lsn es = [].
Proof.
  induction 1 as [|kv es Hkv _ IH]; [done|].
  unfold in_range in *. cbn [omap list_omap].
  rewrite bool_decide_false by lia. exact IH.
Qed.

Lemma sorted_tail_above k (v : Blob.t) es bound :
  Forall (key_lt (k, v)) es → bound <= k + 2 →
  Forall (λ kv, bound <= kv.1 + 1) es.
Proof.
  intros Hlt Hb. eapply Forall_impl; [exact Hlt|].
  intros kv. unfold key_lt. simpl. lia.
Qed.

Lemma replay_visitor_at {A} (cb : Z → list Z → A → A) end_lsn k v a :
  min_int64 <= k < max_int64 →
  replay_visitor end_lsn cb k v a =
    if bool_decide (k + 1 < end_lsn) then
      match deserialize_pbas v with
      | Some plist =>
          Some (bool_decide (k + 1 < int64_wrap (end_lsn - 1)), cb (k + 1) plist a)
      | None => None
      end
    else Some (bool_decide (k + 1 < int64_wrap (end_lsn - 1)), a).
Proof. intros Hk. unfold replay_visitor. by rewrite (to_repl_lsn_succ k). Qed.

Lemma iterate_replay_visitor {A} (cb : Z → list Z → A → A) end_lsn
    (es : list (Z * Blob.t)) :
  is_int64 end_lsn →
  StronglySorted key_lt es →
  Forall (λ kv, min_int64 <= kv.1 < max_int64) es →
  Forall (λ kv, kv.1 + 1 < end_lsn → is_Some (deserialize_pbas kv.2)) es →
  ∀ a, LogStore.iterate es (replay_visitor end_lsn cb) a =
       Some (foldl (deliver cb) a (in_range end_lsn es)).
Proof.
  intros Hend Hs Hk Hd.
  induction es as [|[k v] es IH]; intros a; [done|].
  apply StronglySorted_cons in Hs as [Hlt Hs].
  apply Forall_cons in Hk as [Hk0 Hk]. apply Forall_cons in Hd as [Hd0 Hd].
  simpl in Hk0, Hd0. specialize (IH Hs Hk Hd).
  cbn [LogStore.iterate]. rewrite replay_visitor_at by done.
  unfold in_range. cbn [omap list_omap fst snd]. fold (in_range end_lsn es).
  destruct (decide (k + 1 < end_lsn)) as [Hin|Hout].
  - rewrite !(bool_decide_true (k + 1 < end_lsn)) by done.
    destruct (Hd0 Hin) as [p Hp]. rewrite Hp. cbn [fmap option_fmap option_map foldl].
    rewrite int64_wrap_id by (unfold is_int64, min_int64, max_int64 in *; lia).
    case_bool_decide as Hc.
    + apply IH.
    + rewrite (in_range_nil end_lsn es); [done|].
      apply (sorted_tail_above k v); [done | lia].
  - rewrite !(bool_decide_false (k + 1 < end_lsn)) by done.
    assert (Hnil : in_range end_lsn es = []).
    { apply in_range_nil, (sorted_tail_above k v); [done | lia]. }
    rewrite Hnil. destruct (bool_decide _); [|done].
    by rewrite IH, Hnil.
Qed.

Lemma iterate_noting_visitor end_lsn (es : list (Z * Blob.t)) :
  min_int64 < end_lsn <= max_int64 →
  Forall (λ kv, min_int64 <= kv.1 < max_int64) es →
  Forall (λ kv, kv.1 + 1 < end_lsn → is_Some (deserialize_pbas kv.2)) es →
  ∀ seen, LogStore.iterate es (noting_visitor end_lsn) seen =
          Some (seen ++ upto_stop end_lsn es).
Proof.
  intros Hend Hk Hd.
  induction es as [|[k v] es IH]; intros seen.
  { simpl. by rewrite app_nil_r. }
  apply Forall_cons in Hk as [Hk0 Hk]. apply Forall_cons in Hd as [Hd0 Hd].
  simpl in Hk0, Hd0. specialize (IH Hk Hd).
  cbn [LogStore.iterate upto_stop].
  unfold noting_visitor at 1. rewrite replay_visitor_at by done.
  rewrite int64_wrap_id by (unfold is_int64, min_int64, max_int64 in *; lia).
  assert (Hgo : ∀ (c : bool) (tl : list Z),
            (if c then LogStore.iterate es (noting_visitor end_lsn) (seen ++ [k])
             else Some (seen ++ [k])) =
            Some (seen ++ k :: (if c then upto_stop end_lsn es else []))).
  { intros [] tl; [by rewrite IH, <-app_assoc | done]. }
  case_bool_decide as Hin.
  - destruct (Hd0 Hin) as [p Hp]. rewrite Hp.
    specialize (Hgo (bool_decide (k + 1 < end_lsn - 1)) []).
    destruct (bool_decide (k + 1 < end_lsn - 1)); exact Hgo.
  - specialize (Hgo (bool_decide (k + 1 < end_lsn - 1)) []).
    destruct (bool_decide (k + 1 < end_lsn - 1)); exact Hgo.
Qed.

Lemma elem_of_upto_stop end_lsn (es : list (Z * Blob.t)) :
  StronglySorted key_lt es →
  ∀ s, s ∈ upto_stop end_lsn es ↔
       s ∈ es.*1 ∧ ∀ s', s' ∈ es.*1 → s' < s → s' + 1 < end_lsn - 1.
Proof.
  induction es as [|[k v] es IH]; intros Hs s.
  { simpl. split; [by intros ?%elem_of_nil | by intros [?%elem_of_nil _]]. }
  apply StronglySorted_cons in Hs as [Hlt Hs]. specialize (IH Hs).
  assert (Habove : ∀ s', s' ∈ es.*1 → k < s').
  { intros s' [[k' v'] [-> Hin]]%list_elem_of_fmap.
    rewrite Forall_forall in Hlt. apply (Hlt _ Hin). }
  cbn [upto_stop]. rewrite fmap_cons. cbn [fst].
  rewrite !elem_of_cons. split.
  - intros [-> | Hin].
    + split; [by left|]. intros s' [-> | Hs']%elem_of_cons Hlt'; [lia|].
      apply Habove in Hs'. lia.
    + case_bool_decide as Hc; [|by apply elem_of_nil in Hin].
      apply IH in Hin as [Hin Hbefore]. split; [by right|].
      intros s' [-> | Hs']%elem_of_cons Hlt'; [done | by apply Hbefore].
  - intros [[-> | Hin] Hbefore]; [by left|]. right.
    pose proof (Habove _ Hin) as Hk.
    rewrite bool_decide_true by (apply Hbefore; [by left | done]).
    apply IH. split; [done|]. intros s' Hs' Hlt'. apply Hbefore; [by right | done].
Qed.

Lemma in_range_sorted end_lsn (es : list (Z * Blob.t)) :
  StronglySorted key_lt es → StronglySorted Z.lt (in_range end_lsn es).*1.
Proof.
  induction es as [|[k v] es IH]; intros Hs; [constructor|].
  apply StronglySorted_cons in Hs as [Hlt Hs]. specialize (IH Hs).
  unfold in_range. cbn [omap list_omap fst snd]. fold (in_range end_lsn es).
  destruct (bool_decide _); [|exact IH].
  destruct (deserialize_pbas v) as [p|]; [|exact IH].
  cbn [fmap option_fmap option_map]. rewrite fmap_cons.
  apply StronglySorted_cons. split; [|exact IH].
  apply Forall_forall. intros l [[l' p'] [-> Hin]]%list_elem_of_fmap.
  apply list_elem_of_omap in Hin as [[k' v'] [Hin Hkv]].
  rewrite Forall_forall in Hlt. specialize (Hlt _ Hin). unfold key_lt in Hlt.
  cbn [fst snd] in *.
  destruct (bool_decide _); [|done].
  destruct (deserialize_pbas v'); [|done].
  cbn in Hkv. injection Hkv as <- <-. lia.
Qed.

Lemma elem_of_in_range end_lsn (es : list (Z * Blob.t)) l p :
  (l, p) ∈ in_range end_lsn es ↔
  l < end_lsn ∧ ∃ v, (l - 1, v) ∈ es ∧ deserialize_pbas v = Some p.
Proof.
  unfold in_range. rewrite list_elem_of_omap. split.
  - intros [[k v] [Hin Hkv]]. cbn [fst snd] in Hkv.
    case_bool_decide as Hc; [|done].
    destruct (deserialize_pbas v) as [p'|] eqn:Hp; [|done].
    cbn in Hkv. injection Hkv as <- <-.
    split; [done|]. exists v. split; [|done].
    by replace (k + 1 - 1) with k by lia.
  - intros [Hl [v [Hin Hp]]]. exists (l - 1, v). split; [done|].
    cbn [fst snd]. rewrite bool_decide_true by lia. rewrite Hp. cbn.
    do 2 f_equal. lia.
Qed.

Lemma foldl_deliver_snoc (calls acc : list (Z * list Z)) :
  foldl (deliver (λ lsn pbas acc, acc ++ [(lsn, pbas)])) acc calls = acc ++ calls.
Proof.
  revert acc. induction calls as [|[l p] calls IH]; intros acc; cbn [foldl].
  - by rewrite app_nil_r.
  - rewrite IH. unfold deliver. cbn [fst snd]. by rewrite <-app_assoc.
Qed.

(** ** Range replay *)

Lemma Forall_entries_from (P : Z * Blob.t → Prop) start ls :
  (∀ k v, LogStore.records ls !! k = Some v → start <= k → P (k, v)) →
  Forall P (LogStore.entries_from start ls).
Proof.
  intros H. apply Forall_forall. intros [k v] [Hk Hs]%elem_of_entries_from.
  by apply H.
Qed.

Lemma entries_keys_in_range st start :
  lsns_in_range st →
  Forall (λ kv, min_int64 <= kv.1 < max_int64)
    (LogStore.entries_from start (m_free_pba_store st)).
Proof.
  intros Hr. apply Forall_entries_from. intros k v Hk _. apply Hr. by exists v.
Qed.

Lemma get_free_pba_records_calls start_lsn end_lsn st :
  min_int64 < start_lsn <= max_int64 → is_int64 end_lsn →
  lsns_in_range st → decodable start_lsn end_lsn st →
  ∀ A (cb : Z → list Z → A → A) (a : A),
    get_free_pba_records start_lsn end_lsn cb st a =
    Some (foldl (deliver cb) a
            (in_range end_lsn
               (LogStore.entries_from (start_lsn - 1) (m_free_pba_store st)))).
Proof.
  intros Hstart Hend Hr Hd A cb a.
  unfold get_free_pba_records, LogStore.foreach.
  rewrite to_store_lsn_pred by done.
  apply iterate_replay_visitor; [done | apply entries_from_sorted | by apply entries_keys_in_range |].
  apply Forall_entries_from. intros k v Hk Hs Hlt. cbn [fst snd] in *.
  apply (Hd k v Hk). lia.
Qed.

Lemma elem_of_replay_calls start_lsn end_lsn (ls : LogStore.t) l p :
  (l, p) ∈ in_range end_lsn (LogStore.entries_from (start_lsn - 1) ls) ↔
  start_lsn <= l < end_lsn ∧
  ∃ v, LogStore.records ls !! (l - 1) = Some v ∧ deserialize_pbas v = Some p.
Proof.
  rewrite elem_of_in_range. split.
  - intros [Hl [v [[Hv Hs]%elem_of_entries_from Hp]]].
    split; [lia|]. by exists v.
  - intros [Hl [v [Hv Hp]]]. split; [lia|]. exists v. split; [|done].
    apply elem_of_entries_from. split; [done | lia].
Qed.

Lemma iterated_upto_stop start_lsn end_lsn st :
  min_int64 < start_lsn <= max_int64 → min_int64 < end_lsn <= max_int64 →
  lsns_in_range st → decodable start_lsn end_lsn st →
  iterated start_lsn end_lsn st =
  Some (upto_stop end_lsn
          (LogStore.entries_from (start_lsn - 1) (m_free_pba_store st))).
Proof.
  intros Hstart Hend Hr Hd. unfold iterated, LogStore.foreach.
  rewrite to_store_lsn_pred by done.
  rewrite iterate_noting_visitor; [done | done | by apply entries_keys_in_range |].
  apply Forall_entries_from. intros k v Hk Hs Hlt. cbn [fst snd] in *.
  apply (Hd k v Hk). lia.
Qed.

Lemma elem_of_fst_entries_from start ls s :
  s ∈ (LogStore.entries_from start ls).*1 ↔
  is_Some (LogStore.records ls !! s) ∧ start <= s.
Proof.
  rewrite list_elem_of_fmap. split.
  - intros [[k v] [-> [Hv Hs]%elem_of_entries_from]]. split; [by exists v | done].
  - intros [[v Hv] Hs]. exists (s, v). split; [done|].
    by apply elem_of_entries_from.
Qed.

(** C1. The replay hands the visitor exactly the stored records whose
    consensus-LSN [l] has [start_lsn <= l < end_lsn], each once, in LSN
    order, with the pbas decoded from the record; and the iteration looks
    at a record only if every record before it (from [start_lsn] on) has a
    consensus-LSN below [end_lsn - 1], so that it goes no further than a
    record at [end_lsn - 1], which is still delivered.  With records at
    LSNs 1 to 5, the replay of [2, 5) delivers those at 2, 3 and 4. *)
Theorem get_free_pba_records_range start_lsn end_lsn st :
  min_int64 < start_lsn <= max_int64 → min_int64 < end_lsn <= max_int64 →
  lsns_in_range st → decodable start_lsn end_lsn st →
  ∃ calls seen,
    (∀ A (cb : Z → list Z → A → A) (a : A),
       get_free_pba_records start_lsn end_lsn cb st a =
       Some (foldl (deliver cb) a calls)) ∧
    replayed start_lsn end_lsn st = Some calls ∧
    StronglySorted Z.lt calls.*1 ∧
    (∀ l p, (l, p) ∈ calls ↔
       start_lsn <= l < end_lsn ∧
       ∃ v, LogStore.records (m_free_pba_store st) !! (l - 1) = Some v ∧
            deserialize_pbas v = Some p) ∧
    iterated start_lsn end_lsn st = Some seen ∧
    (∀ s, s ∈ seen ↔
       is_Some (LogStore.records (m_free_pba_store st) !! s) ∧
       start_lsn <= s + 1 ∧
       ∀ s', is_Some (LogStore.records (m_free_pba_store st) !! s') →
             start_lsn <= s' + 1 → s' < s → s' + 1 < end_lsn - 1) ∧
    replayed 2 5 s6_journal = Some [(2, [20; 21]); (3, []); (4, [40])].
Proof.
  intros Hstart Hend Hr Hd.
  assert (Hend' : is_int64 end_lsn) by (unfold is_int64; lia).
  pose proof (get_free_pba_records_calls _ _ _ Hstart Hend' Hr Hd) as Hcalls.
  set (es := LogStore.entries_from (start_lsn - 1) (m_free_pba_store st)) in *.
  exists (in_range end_lsn es), (upto_stop end_lsn es).
  split; [exact Hcalls|]. split.
  { unfold replayed. rewrite Hcalls. by rewrite foldl_deliver_snoc. }
  split; [apply in_range_sorted, entries_from_sorted|].
  split; [intros l p; apply elem_of_replay_calls|].
  split; [by apply iterated_upto_stop|].
  split; [|by vm_compute].
  intros s. rewrite elem_of_upto_stop by apply entries_from_sorted.
  unfold es. rewrite elem_of_fst_entries_from. split.
  - intros [[Hs Hge] Hbefore]. split; [done|]. split; [lia|].
    intros s' Hs' Hge' Hlt. apply Hbefore; [|done].
    apply elem_of_fst_entries_from. split; [done | lia].
  - intros [Hs [Hge Hbefore]]. split; [split; [done | lia]|].
    intros s' [Hs' Hge']%elem_of_fst_entries_from Hlt. apply Hbefore; [done | lia | done].
Qed.

Lemma decide_map_Forall (P : Z → Blob.t → Prop) `{∀ k v, Decision (P k v)}
    (m : gmap Z Blob.t) :
  bool_decide (map_Forall P m) = true → ∀ k v, m !! k = Some v → P k v.
Proof. intros Hd. by apply bool_decide_eq_true_1 in Hd. Qed.

Lemma s6_journal_in_range : lsns_in_range s6_journal.
Proof.
  intros s [v Hv]. revert s v Hv.
  apply (decide_map_Forall (λ s _, min_int64 <= s < max_int64)).
  by vm_compute.
Qed.

Lemma s6_journal_decodable start_lsn end_lsn :
  decodable start_lsn end_lsn s6_journal.
Proof.
  intros s v Hv _. revert s v Hv.
  apply (decide_map_Forall (λ _ v, is_Some (deserialize_pbas v))).
  by vm_compute.
Qed.

Lemma get_free_pba_records_range_s6 :
  ∃ calls seen,
    replayed 2 5 s6_journal = Some calls ∧ calls.*1 = [2; 3; 4] ∧
    iterated 2 5 s6_journal = Some seen ∧ seen = [1; 2; 3].
Proof.
  destruct (get_free_pba_records_range 2 5 s6_journal)
    as (calls & seen & _ & Hcalls & _ & _ & Hseen & _).
  - by vm_compute.
  - by vm_compute.
  - apply s6_journal_in_range.
  - apply s6_journal_decodable.
  - exists calls, seen.
    assert (Hc : replayed 2 5 s6_journal = Some [(2, [20; 21]); (3, []); (4, [40])])
      by (by vm_compute).
    assert (Hs : iterated 2 5 s6_journal = Some [1; 2; 3]) by (by vm_compute).
    rewrite Hcalls in Hc. rewrite Hseen in Hs.
    injection Hc as ->. injection Hs as ->. done.
Defined.

(** ** Empty ranges *)

Lemma upto_stop_short end_lsn (es : list (Z * Blob.t)) :
  Forall (λ kv, end_lsn <= kv.1 + 1) es →
  (length (upto_stop end_lsn es) <= 1)%nat.
Proof.
  destruct es as [|[k v] es]; [simpl; lia|].
  intros [Hk _]%Forall_cons. cbn [fst] in Hk. cbn [upto_stop].
  rewrite bool_decide_false by lia. simpl. lia.
Qed.

Lemma entries_beyond_end start_lsn end_lsn st :
  is_int64 start_lsn → is_int64 end_lsn → end_lsn <= start_lsn →
  lsns_in_range st →
  Forall (λ kv, end_lsn <= kv.1 + 1)
    (LogStore.entries_from (to_store_lsn start_lsn) (m_free_pba_store st)).
Proof.
  intros Hstart Hend Hle Hr. apply Forall_entries_from.
  intros k v Hk Hs. cbn [fst].
  assert (Hkr : min_int64 <= k < max_int64) by (apply Hr; by exists v).
  destruct (decide (start_lsn = min_int64)) as [->|Hne]; [lia|].
  rewrite to_store_lsn_pred in Hs by (unfold is_int64 in Hstart; lia). lia.
Qed.

Lemma get_free_pba_records_nothing start_lsn end_lsn st :
  is_int64 start_lsn → is_int64 end_lsn → end_lsn <= start_lsn →
  lsns_in_range st →
  ∀ A (cb : Z → list Z → A → A) (a : A),
    get_free_pba_records start_lsn end_lsn cb st a = Some a.
Proof.
  intros Hstart Hend Hle Hr A cb a.
  pose proof (entries_beyond_end _ _ _ Hstart Hend Hle Hr) as Hbeyond.
  unfold get_free_pba_records, LogStore.foreach.
  rewrite iterate_replay_visitor;
    [| done | apply entries_from_sorted | by apply entries_keys_in_range |].
  - by rewrite in_range_nil.
  - eapply Forall_impl; [exact Hbeyond|]. intros kv Hkv Hlt. cbn beta in Hkv. lia.
Qed.

(** C9. When [end_lsn <= start_lsn] the replay never calls the visitor,
    whatever the log store holds: the first record the iteration looks at
    has a consensus-LSN of at least [start_lsn], hence of at least
    [end_lsn], and is the only one it looks at. *)
Theorem get_free_pba_records_empty_range start_lsn end_lsn st :
  is_int64 start_lsn → is_int64 end_lsn → end_lsn <= start_lsn →
  lsns_in_range st →
  (∀ A (cb : Z → list Z → A → A) (a : A),
     get_free_pba_records start_lsn end_lsn cb st a = Some a) ∧
  replayed start_lsn end_lsn st = Some [] ∧
  (min_int64 < end_lsn →
   ∃ seen, iterated start_lsn end_lsn st = Some seen ∧
           (length seen <= 1)%nat ∧
           ∀ s, s ∈ seen → end_lsn <= start_lsn <= s + 1).
Proof.
  intros Hstart Hend Hle Hr.
  pose proof (entries_beyond_end _ _ _ Hstart Hend Hle Hr) as Hbeyond.
  assert (Hd : Forall (λ kv : Z * Blob.t,
                 kv.1 + 1 < end_lsn → is_Some (deserialize_pbas kv.2))
                 (LogStore.entries_from (to_store_lsn start_lsn)
                    (m_free_pba_store st))).
  { eapply Forall_impl; [exact Hbeyond|]. intros kv Hkv Hlt. cbn beta in Hkv. lia. }
  pose proof (get_free_pba_records_nothing _ _ _ Hstart Hend Hle Hr) as Hget.
  split; [exact Hget|]. split; [apply Hget|].
  intros Hmin.
  exists (upto_stop end_lsn
            (LogStore.entries_from (to_store_lsn start_lsn) (m_free_pba_store st))).
  split; [|split].
  - unfold iterated, LogStore.foreach.
    rewrite iterate_noting_visitor;
      [done | unfold is_int64 in Hend; lia | by apply entries_keys_in_range | done].
  - by apply upto_stop_short.
  - intros s Hs. split; [done|].
    apply elem_of_upto_stop in Hs as [Hs _]; [|apply entries_from_sorted].
    apply elem_of_fst_entries_from in Hs as [_ Hs].
    rewrite to_store_lsn_pred in Hs by (unfold is_int64 in Hstart; lia). lia.
Qed.

Lemma get_free_pba_records_empty_range_s6 :
  replayed 5 2 s6_journal = Some [] ∧
  ∃ seen, iterated 5 2 s6_journal = Some seen ∧ (length seen <= 1)%nat.
Proof.
  destruct (get_free_pba_records_empty_range 5 2 s6_journal)
    as (_ & Hcalls & Hseen).
  - by vm_compute.
  - by vm_compute.
  - lia.
  - apply s6_journal_in_range.
  - split; [exact Hcalls|].
    destruct Hseen as (seen & Hs & Hlen & _); [by vm_compute|].
    by exists seen.
Defined.

(** ** Truncation *)

Lemma truncate_lookup upto_lsn ls s :
  LogStore.records (LogStore.truncate upto_lsn ls) !! s =
  if bool_decide (s <= upto_lsn) then None else LogStore.records ls !! s.
Proof.
  cbn [LogStore.truncate LogStore.records]. apply option_eq. intros v.
  rewrite map_lookup_filter_Some. cbn [fst].
  case_bool_decide as Hc.
  - split; [intros [_ ?]; lia | done].
  - split; [by intros [? _] | intros ?; split; [done | lia]].
Qed.

Lemma truncate_in_range lsn st :
  lsns_in_range st → lsns_in_range (remove_free_pba_records_upto lsn st).
Proof.
  intros Hr s Hs. apply Hr.
  cbn [remove_free_pba_records_upto m_free_pba_store] in Hs.
  rewrite truncate_lookup in Hs. case_bool_decide; [by destruct Hs | done].
Qed.

Lemma replay_after_truncate lsn st start_lsn end_lsn :
  min_int64 < lsn < max_int64 → min_int64 < start_lsn <= lsn + 1 →
  ∀ A (cb : Z → list Z → A → A) (a : A),
    get_free_pba_records start_lsn end_lsn cb
      (remove_free_pba_records_upto lsn st) a =
    get_free_pba_records (lsn + 1) end_lsn cb st a.
Proof.
  intros Hlsn Hstart A cb a.
  unfold get_free_pba_records, LogStore.foreach.
  cbn [remove_free_pba_records_upto m_free_pba_store].
  rewrite !to_store_lsn_pred by (unfold max_int64, min_int64 in *; lia).
  f_equal. apply entries_from_ext. intros k v.
  rewrite truncate_lookup. case_bool_decide as Hc.
  - split; [by intros [? _] | intros [_ ?]; lia].
  - split; intros [? ?]; (split; [done | lia]).
Qed.

(** C5.  [remove_free_pba_records_upto lsn] truncates the log store at
    store-LSN [lsn - 1]: the records at store-LSN [<= lsn - 1] are gone,
    those above are kept, and [m_last_write_lsn] is zero.  Afterwards a
    replay of the truncated range, from any [start_lsn <= lsn + 1] (such
    as 1 after truncating through 1000) up to the checkpoint
    ([end_lsn <= lsn + 1]), visits no record, while a replay from
    [lsn + 1] delivers exactly the records above [lsn] (and below its
    [end_lsn]); a replay from below the checkpoint delivers what the one
    from [lsn + 1] delivers.  On the journal of scenario S5, truncated
    through 1000, the replay from 1 to the checkpoint is empty and the
    replay from 1001 delivers the records at 1001 and 1002. *)
Theorem remove_free_pba_records_upto_truncates lsn st :
  min_int64 < lsn < max_int64 → lsns_in_range st →
  let st' := remove_free_pba_records_upto lsn st in
  LogStore.calls (m_free_pba_store st') =
    LogStore.calls (m_free_pba_store st) ++ [LogStore.Truncate (lsn - 1)] ∧
  (∀ s, LogStore.records (m_free_pba_store st') !! s =
        if bool_decide (s <= lsn - 1) then None
        else LogStore.records (m_free_pba_store st) !! s) ∧
  m_last_write_lsn st' = 0 ∧
  (∀ start_lsn end_lsn A (cb : Z → list Z → A → A) (a : A),
     min_int64 < start_lsn <= lsn + 1 →
     get_free_pba_records start_lsn end_lsn cb st' a =
     get_free_pba_records (lsn + 1) end_lsn cb st' a) ∧
  (∀ start_lsn end_lsn,
     min_int64 < start_lsn <= lsn + 1 → is_int64 end_lsn →
     end_lsn <= lsn + 1 →
     replayed start_lsn end_lsn st' = Some []) ∧
  (∀ end_lsn,
     is_int64 end_lsn → decodable (lsn + 1) end_lsn st →
     ∃ calls,
       replayed (lsn + 1) end_lsn st' = Some calls ∧
       ∀ l p, (l, p) ∈ calls ↔
         lsn < l < end_lsn ∧
         ∃ v, LogStore.records (m_free_pba_store st) !! (l - 1) = Some v ∧
              deserialize_pbas v = Some p) ∧
  replayed 1 1001 (remove_free_pba_records_upto 1000 s5_journal) = Some [] ∧
  replayed 1001 max_int64 (remove_free_pba_records_upto 1000 s5_journal)
    = Some [(1001, [8]); (1002, [9; 10])].
Proof.
  intros Hlsn Hr st'.
  assert (Hlsn' : min_int64 < lsn <= max_int64) by lia.
  assert (Hnext : min_int64 < lsn + 1 <= lsn + 1) by lia.
  assert (Hnext' : min_int64 < lsn + 1 <= max_int64) by lia.
  split; [|split; [|split; [|split; [|split; [|split; [|by vm_compute]]]]]].
  - unfold st'. cbn [remove_free_pba_records_upto m_free_pba_store LogStore.truncate
                     LogStore.calls].
    by rewrite to_store_lsn_pred.
  - intros s. unfold st'. cbn [remove_free_pba_records_upto m_free_pba_store].
    by rewrite truncate_lookup, to_store_lsn_pred.
  - done.
  - intros start_lsn end_lsn A cb a Hstart. unfold st'.
    by rewrite !replay_after_truncate.
  - intros start_lsn end_lsn Hstart Hend Hle. unfold replayed, st'.
    rewrite replay_after_truncate by done.
    apply get_free_pba_records_nothing; [unfold is_int64; lia | done | done | done].
  - intros end_lsn Hend Hd.
    exists (in_range end_lsn
              (LogStore.entries_from (lsn + 1 - 1) (m_free_pba_store st))).
    split.
    + unfold replayed, st'. rewrite replay_after_truncate by done.
      rewrite get_free_pba_records_calls by done.
      by rewrite foldl_deliver_snoc.
    + intros l p. rewrite elem_of_replay_calls.
      split; intros [? ?]; (split; [lia | done]).
Qed.

Lemma s5_journal_in_range : lsns_in_range s5_journal.
Proof.
  intros s [v Hv]. revert s v Hv.
  apply (decide_map_Forall (λ s _, min_int64 <= s < max_int64)).
  by vm_compute.
Qed.

Lemma s5_journal_decodable start_lsn end_lsn :
  decodable start_lsn end_lsn s5_journal.
Proof.
  intros s v Hv _. revert s v Hv.
  apply (decide_map_Forall (λ _ v, is_Some (deserialize_pbas v))).
  by vm_compute.
Qed.

Lemma remove_free_pba_records_upto_truncates_s5 :
  let st' := remove_free_pba_records_upto 1000 s5_journal in
  m_last_write_lsn st' = 0 ∧
  replayed 1 1001 st' = Some [] ∧
  replayed 1001 max_int64 st' = Some [(1001, [8]); (1002, [9; 10])] ∧
  replayed 1 max_int64 st' = replayed 1001 max_int64 st'.
Proof.
  destruct (remove_free_pba_records_upto_truncates 1000 s5_journal)
    as (_ & _ & Hlast & Hsame & Hnone & _).
  - by vm_compute.
  - apply s5_journal_in_range.
  - split; [exact Hlast|]. split; [|split].
    + apply Hnone; by vm_compute.
    + by vm_compute.
    + apply Hsame. by vm_compute.
Defined.

(** ** The journal invariant *)

Lemma serialize_pbas_decodes (pbas : list Z) b :
  Forall is_uint64 pbas → serialize_pbas pbas = Some b →
  deserialize_pbas b = Some pbas.
Proof.
  intros Hall Hser.
  destruct (decide (4 + 8 * Z.of_nat (length pbas) < 2 ^ 32)) as [Hfit|Hbig].
  - rewrite serialize_pbas_layout in Hser by done. injection Hser as <-.
    apply deserialize_record_layout; [|done].
    change (2 ^ 32) with 4294967296 in *. lia.
  - destruct (serialize_pbas_overflow pbas) as [_ Hnone]; [lia|]. congruence.
Qed.

Lemma step_journal_wf invalid_lsn o st st' :
  op_ok o → journal_wf st → step invalid_lsn o st = Some st' → journal_wf st'.
Proof.
  intros Hok Hwf Hstep.
  destruct o as [lsn| |lsn pbas|lsn|]; cbn [step] in Hstep.
  - injection Hstep as <-. exact Hwf.
  - injection Hstep as <-. exact Hwf.
  - destruct Hok as [Hlsn Hall]. unfold add_free_pba_record in Hstep.
    destruct (serialize_pbas pbas) as [b|] eqn:Hser; [|done].
    injection Hstep as <-. intros s v.
    cbn [m_free_pba_store LogStore.write_async LogStore.records].
    rewrite to_store_lsn_pred by done.
    destruct (decide (lsn - 1 = s)) as [<-|Hne].
    + rewrite lookup_insert_eq. intros [= <-]. split; [lia|].
      exists pbas. by apply serialize_pbas_decodes.
    + rewrite lookup_insert_ne by done. apply Hwf.
  - injection Hstep as <-. intros s v.
    cbn [remove_free_pba_records_upto m_free_pba_store].
    rewrite truncate_lookup. case_bool_decide; [done | apply Hwf].
  - injection Hstep as <-. exact Hwf.
Qed.

Lemma run_journal_wf invalid_lsn ops : ∀ st st',
  Forall op_ok ops → journal_wf st → run invalid_lsn ops st = Some st' →
  journal_wf st'.
Proof.
  induction ops as [|o ops IH]; intros st st' Hok Hwf Hrun.
  - by injection Hrun as <-.
  - apply Forall_cons in Hok as [Ho Hok]. cbn [run] in Hrun.
    destruct (step invalid_lsn o st) as [st1|] eqn:Hstep; [|done].
    eapply IH; [exact Hok | | exact Hrun].
    by eapply step_journal_wf.
Qed.

Lemma create_journal_wf rs_uuid store_id : journal_wf (create rs_uuid store_id).
Proof. intros s v Hv. cbn in Hv. by rewrite lookup_empty in Hv. Qed.

Lemma journal_wf_in_range st : journal_wf st → lsns_in_range st.
Proof. intros Hwf s [v Hv]. by destruct (Hwf s v Hv). Qed.

Lemma journal_wf_decodable st start_lsn end_lsn :
  journal_wf st → decodable start_lsn end_lsn st.
Proof. intros Hwf s v Hv _. by destruct (Hwf s v Hv). Qed.

(** ** Flushing *)

(** C6. [flush_free_pba_records] asks the log store to flush up to the
    store-LSN of [m_last_write_lsn] (that is [m_last_write_lsn - 1]) when
    it is not zero, which makes the records up to there durable; when it
    is zero the flush is asked for the invalid sentinel and changes
    neither the records nor what is durable. *)
Theorem flush_free_pba_records_upto_last_write invalid_lsn st :
  let st' := flush_free_pba_records invalid_lsn st in
  let ls := m_free_pba_store st in
  let ls' := m_free_pba_store st' in
  let last_lsn := m_last_write_lsn st in
  LogStore.records ls' = LogStore.records ls ∧
  m_last_write_lsn st' = last_lsn ∧
  (last_lsn ≠ 0 →
     LogStore.calls ls' =
       LogStore.calls ls ++ [LogStore.FlushSync (to_store_lsn last_lsn)] ∧
     (min_int64 < last_lsn <= max_int64 → to_store_lsn last_lsn = last_lsn - 1) ∧
     (to_store_lsn last_lsn ≠ invalid_lsn →
      ∀ s, s ∈ LogStore.durable ls' ↔
           s ∈ LogStore.durable ls ∨
           (is_Some (LogStore.records ls !! s) ∧ s <= to_store_lsn last_lsn))) ∧
  (last_lsn = 0 →
     LogStore.calls ls' = LogStore.calls ls ++ [LogStore.FlushSync invalid_lsn] ∧
     LogStore.durable ls' = LogStore.durable ls).
Proof.
  cbn zeta. unfold flush_free_pba_records.
  cbn [m_free_pba_store m_last_write_lsn LogStore.flush_sync LogStore.records
       LogStore.calls LogStore.durable].
  split; [done|]. split; [done|]. split.
  - intros Hne. rewrite bool_decide_false by done.
    split; [done|]. split; [apply to_store_lsn_pred|].
    intros Hs s. rewrite decide_False by done.
    rewrite elem_of_union, elem_of_filter, elem_of_dom. tauto.
  - intros Hz. rewrite bool_decide_true by done.
    split; [done|]. by rewrite decide_True.
Qed.

Lemma flush_free_pba_records_upto_last_write_s6 :
  let st' := flush_free_pba_records (-1) s6_journal in
  last (LogStore.calls (m_free_pba_store st')) = Some (LogStore.FlushSync 4) ∧
  (∀ s, s ∈ LogStore.durable (m_free_pba_store st') ↔
        s ∈ LogStore.durable (m_free_pba_store s6_journal) ∨
        (is_Some (LogStore.records (m_free_pba_store s6_journal) !! s) ∧ s <= 4)) ∧
  LogStore.calls (m_free_pba_store (flush_free_pba_records (-1) (create [] 0)))
    = [LogStore.FlushSync (-1)].
Proof.
  destruct (flush_free_pba_records_upto_last_write (-1) s6_journal)
    as (_ & _ & Hflush & _).
  destruct (flush_free_pba_records_upto_last_write (-1) (create [] 0))
    as (_ & _ & _ & Hnone).
  destruct Hflush as (Hcalls & _ & Hdur); [by vm_compute|].
  destruct Hnone as (Hcalls0 & _); [reflexivity|].
  split; [|split].
  - cbn zeta. rewrite Hcalls. by rewrite last_snoc.
  - apply Hdur. by vm_compute.
  - exact Hcalls0.
Defined.

(** ** Sequences of calls *)

Lemma run_app invalid_lsn ops1 ops2 st :
  run invalid_lsn (ops1 ++ ops2) st =
  run invalid_lsn ops1 st ≫= run invalid_lsn ops2.
Proof.
  revert st. induction ops1 as [|o ops1 IH]; intros st; [done|].
  cbn [app run]. destruct (step invalid_lsn o st); [apply IH | done].
Qed.

Lemma run_no_add_keeps_zero invalid_lsn ops : ∀ st st',
  forallb (λ o, negb (is_add o)) ops = true →
  run invalid_lsn ops st = Some st' →
  m_last_write_lsn st = 0 → m_last_write_lsn st' = 0.
Proof.
  induction ops as [|o ops IH]; intros st st' Hno Hrun Hz.
  - by injection Hrun as <-.
  - cbn [forallb] in Hno. apply andb_prop in Hno as [Ho Hno].
    cbn [run] in Hrun.
    destruct o; cbn [step is_add negb] in *; try done;
      (eapply IH; [exact Hno | exact Hrun | done]).
Qed.

(** C10. In every sequence of calls that ends in
    [remove_free_pba_records_upto k], then calls other than
    [add_free_pba_record], then [flush_free_pba_records], the flush is
    asked for the invalid sentinel and leaves the records and what is
    durable as they were: a record appended before the truncation and not
    durable then is not durable after the flush either. *)
Theorem flush_after_truncate_is_sentinel invalid_lsn ops k mid st st_end :
  forallb (λ o, negb (is_add o)) mid = true →
  run invalid_lsn
    (ops ++ RemoveFreePbaRecordsUpto k :: mid ++ [FlushFreePbaRecords]) st
    = Some st_end →
  ∃ st',
    run invalid_lsn (ops ++ RemoveFreePbaRecordsUpto k :: mid) st = Some st' ∧
    st_end = flush_free_pba_records invalid_lsn st' ∧
    m_last_write_lsn st' = 0 ∧
    LogStore.calls (m_free_pba_store st_end) =
      LogStore.calls (m_free_pba_store st') ++ [LogStore.FlushSync invalid_lsn] ∧
    LogStore.records (m_free_pba_store st_end) =
      LogStore.records (m_free_pba_store st') ∧
    LogStore.durable (m_free_pba_store st_end) =
      LogStore.durable (m_free_pba_store st') ∧
    ∀ s, is_Some (LogStore.records (m_free_pba_store st') !! s) →
         s ∉ LogStore.durable (m_free_pba_store st') →
         s ∉ LogStore.durable (m_free_pba_store st_end).
Proof.
  intros Hno Hrun.
  replace (ops ++ RemoveFreePbaRecordsUpto k :: mid ++ [FlushFreePbaRecords])
    with ((ops ++ RemoveFreePbaRecordsUpto k :: mid) ++ [FlushFreePbaRecords])
    in Hrun by (by rewrite <-app_assoc).
  rewrite run_app in Hrun.
  destruct (run invalid_lsn (ops ++ RemoveFreePbaRecordsUpto k :: mid) st)
    as [st'|] eqn:Hpre; [|done].
  cbn in Hrun. injection Hrun as <-.
  exists st'. split; [done|]. split; [done|].
  assert (Hz : m_last_write_lsn st' = 0).
  { rewrite run_app in Hpre.
    destruct (run invalid_lsn ops st) as [st0|]; [|done].
    cbn [mbind option_bind run step] in Hpre.
    by eapply run_no_add_keeps_zero. }
  split; [done|].
  unfold flush_free_pba_records.
  cbn [m_free_pba_store LogStore.flush_sync LogStore.records LogStore.calls
       LogStore.durable].
  rewrite Hz, bool_decide_true, decide_True by done. done.
Qed.

Lemma flush_after_truncate_is_sentinel_s6 :
  ∃ st',
    run (-1) ([AddFreePbaRecord 1 [10]; AddFreePbaRecord 2 [20; 21]]
                ++ RemoveFreePbaRecordsUpto 1 :: [CommitLsn 1]) (create [] 0)
      = Some st' ∧
    last (LogStore.calls
            (m_free_pba_store (flush_free_pba_records (-1) st')))
      = Some (LogStore.FlushSync (-1)) ∧
    is_Some (LogStore.records (m_free_pba_store st') !! 1) ∧
    1 ∉ LogStore.durable (m_free_pba_store (flush_free_pba_records (-1) st')).
Proof.
  destruct (flush_after_truncate_is_sentinel (-1)
              [AddFreePbaRecord 1 [10]; AddFreePbaRecord 2 [20; 21]]
              1 [CommitLsn 1] (create [] 0)
              (flush_free_pba_records (-1)
                 (default (create [] 0)
                    (run (-1) [AddFreePbaRecord 1 [10]; AddFreePbaRecord 2 [20; 21];
                               RemoveFreePbaRecordsUpto 1; CommitLsn 1]
                       (create [] 0)))))
    as (st' & Hrun & -> & _ & Hcalls & _ & _ & Hnot).
  - reflexivity.
  - by vm_compute.
  - exists st'. split; [exact Hrun|]. split; [by rewrite Hcalls, last_snoc|].
    assert (Hst' : st' = default (create [] 0)
                     (run (-1) [AddFreePbaRecord 1 [10]; AddFreePbaRecord 2 [20; 21];
                                RemoveFreePbaRecordsUpto 1; CommitLsn 1]
                        (create [] 0))).
    { cbn [app] in Hrun. by rewrite Hrun. }
    assert (Hrec : is_Some (LogStore.records (m_free_pba_store st') !! 1)).
    { rewrite Hst'. by_evaluation. }
    split; [exact Hrec|]. apply Hnot; [exact Hrec|].
    rewrite Hst'. by_evaluation.
Defined.

(** ** The superblock *)

(** C7. After [commit_lsn lsn], [get_last_commit_lsn] returns [lsn]; the
    other fields of the in-memory superblock, the persistent superblock
    and the journal are as before; and each of the two operations takes
    the superblock lock shared and releases it. *)
Theorem commit_lsn_then_get_last_commit_lsn lsn st :
  let st' := commit_lsn lsn st in
  let r := get_last_commit_lsn st' in
  r.1 = lsn ∧
  home_rs_superblk.uuid (m_sb_in_mem st') = home_rs_superblk.uuid (m_sb_in_mem st) ∧
  home_rs_superblk.free_pba_store_id (m_sb_in_mem st') =
    home_rs_superblk.free_pba_store_id (m_sb_in_mem st) ∧
  m_sb st' = m_sb st ∧
  m_free_pba_store st' = m_free_pba_store st ∧
  m_last_write_lsn st' = m_last_write_lsn st ∧
  SharedMutex.history (m_sb_lock st') =
    SharedMutex.history (m_sb_lock st)
      ++ [SharedMutex.LockShared; SharedMutex.UnlockShared] ∧
  SharedMutex.readers (m_sb_lock st') = SharedMutex.readers (m_sb_lock st) ∧
  m_sb_in_mem r.2 = m_sb_in_mem st' ∧
  SharedMutex.history (m_sb_lock r.2) =
    SharedMutex.history (m_sb_lock st')
      ++ [SharedMutex.LockShared; SharedMutex.UnlockShared] ∧
  SharedMutex.readers (m_sb_lock r.2) = SharedMutex.readers (m_sb_lock st').
Proof.
  cbn zeta. unfold get_last_commit_lsn, commit_lsn.
  cbn [fst snd m_sb m_sb_in_mem m_sb_lock m_free_pba_store m_last_write_lsn
       home_rs_superblk.uuid home_rs_superblk.commit_lsn
       home_rs_superblk.free_pba_store_id
       SharedMutex.lock_shared SharedMutex.unlock_shared
       SharedMutex.history SharedMutex.readers Nat.pred].
  rewrite <-!app_assoc. repeat split; reflexivity.
Qed.

(** ** Allocation *)

(** C4. [alloc_pbas] returns the empty list for every size: no pba is
    handed out and no failure is reported. *)
Theorem alloc_pbas_returns_no_pba size st :
  alloc_pbas size st = [] ∧ length (alloc_pbas size st) = 0%nat ∧
  alloc_pbas 4096 st = [].
Proof. done. Qed.

(** ** Appending a record *)

Lemma record_layout_load_u64 (pbas : list Z) (i : nat) pba :
  Forall is_uint64 pbas → pbas !! i = Some pba →
  Blob.load_u64 (4 + 8 * i) (record_layout pbas) = Some pba.
Proof.
  intros Hall Hi.
  assert (Hpba : is_uint64 pba).
  { rewrite Forall_forall in Hall. apply Hall. by eapply list_elem_of_lookup_2. }
  pose proof (lookup_lt_Some _ _ _ Hi) as Hlt.
  unfold record_layout.
  rewrite <-(take_drop_middle pbas i pba Hi) at 2.
  rewrite flat_map_app. cbn [flat_map].
  rewrite (app_assoc (le_split 4 _)).
  set (pre := le_split 4 (Z.of_nat (length pbas)) ++ flat_map (le_split 8) (take i pbas)).
  assert (Hpre : length pre = (4 + 8 * i)%nat).
  { unfold pre. rewrite length_app, length_le_split, length_flat_le_split_8,
      length_take. lia. }
  rewrite <-Hpre. by apply blob_load_u64_at.
Qed.

Lemma add_free_pba_record_Some lsn (pbas : list Z) st :
  4 + 8 * Z.of_nat (length pbas) < 2 ^ 32 →
  add_free_pba_record lsn pbas st =
  Some (HomeStateMachineStore.mk (m_sb st) (m_sb_in_mem st) (m_sb_lock st)
          (LogStore.write_async (to_store_lsn lsn) (record_layout pbas)
             (m_free_pba_store st))
          lsn).
Proof.
  intros Hfit. unfold add_free_pba_record. by rewrite serialize_pbas_layout.
Qed.

(** C3, as amended.  For a list whose record fits the 32-bit size
    ([4 + 8 * len < 2^32]) and an [lsn] whose predecessor is representable,
    [add_free_pba_record lsn pbas] writes to the log store, at store-LSN
    [lsn - 1], a buffer of exactly [4 + 8 * len] bytes that holds the count
    [len] as a [u32] at offset 0 and the pbas as [u64] values at offsets
    4, 12, ...; it records [lsn] as [m_last_write_lsn]; and the
    consensus-LSN of store-LSN [lsn - 1] is [lsn]. *)
Theorem add_free_pba_record_layout lsn (pbas : list Z) st :
  min_int64 < lsn <= max_int64 →
  4 + 8 * Z.of_nat (length pbas) < 2 ^ 32 →
  Forall is_uint64 pbas →
  ∃ b st',
    add_free_pba_record lsn pbas st = Some st' ∧
    serialize_pbas pbas = Some b ∧
    Z.of_nat (length b) = 4 + 8 * Z.of_nat (length pbas) ∧
    Blob.load_u32 0 b = Some (Z.of_nat (length pbas)) ∧
    (∀ (i : nat) pba, pbas !! i = Some pba →
                      Blob.load_u64 (4 + 8 * i) b = Some pba) ∧
    m_last_write_lsn st' = lsn ∧
    LogStore.calls (m_free_pba_store st') =
      LogStore.calls (m_free_pba_store st) ++ [LogStore.WriteAsync (lsn - 1) b] ∧
    LogStore.records (m_free_pba_store st') !! (lsn - 1) = Some b ∧
    (∀ s, s ≠ lsn - 1 →
          LogStore.records (m_free_pba_store st') !! s =
          LogStore.records (m_free_pba_store st) !! s) ∧
    to_repl_lsn (lsn - 1) = lsn ∧
    m_sb_in_mem st' = m_sb_in_mem st ∧ m_sb st' = m_sb st.
Proof.
  intros Hlsn Hfit Hall.
  eexists (record_layout pbas), _.
  split; [by apply add_free_pba_record_Some|].
  cbn [m_free_pba_store m_last_write_lsn m_sb_in_mem m_sb LogStore.write_async
       LogStore.calls LogStore.records].
  rewrite to_store_lsn_pred by done.
  split; [by apply serialize_pbas_layout|].
  split; [rewrite record_layout_length; lia|].
  split.
  { pose proof (blob_load_u32_at [] (flat_map (le_split 8) pbas)
                  (Z.of_nat (length pbas))) as H32.
    cbn [length app] in H32. apply H32. lia. }
  split; [intros i pba; by apply record_layout_load_u64|].
  split; [done|]. split; [done|].
  split; [apply lookup_insert_eq|].
  split; [intros s Hs; by apply lookup_insert_ne|].
  split; [|done].
  rewrite <-(to_store_lsn_pred lsn) by done.
  apply to_repl_to_store_lsn. unfold is_int64. lia.
Qed.

Lemma add_free_pba_record_layout_s1 :
  ∃ b st',
    add_free_pba_record 1 [100] (create [] 0) = Some st' ∧
    b = le_split 4 1 ++ le_split 8 100 ∧
    LogStore.records (m_free_pba_store st') !! 0 = Some b ∧
    m_last_write_lsn st' = 1.
Proof.
  destruct (add_free_pba_record_layout 1 [100] (create [] 0))
    as (b & st' & Hadd & Hser & _ & _ & _ & Hlast & _ & Hrec & _).
  - by vm_compute.
  - by vm_compute.
  - repeat constructor; by vm_compute.
  - exists b, st'. split; [exact Hadd|]. split; [|done].
    assert (Hb : serialize_pbas [100] = Some (le_split 4 1 ++ le_split 8 100))
      by (by vm_compute).
    rewrite Hser in Hb. by injection Hb.
Defined.

(** C3 as it is stated fails on a list of [2^29] pbas: the 32-bit
    [size_needed] is 4 instead of [4 + 8 * 2^29], so the buffer has room
    for the count only and no record is written within it. *)
Lemma add_free_pba_record_long_list :
  size_needed (repeat 0 (Z.to_nat (2 ^ 29))) = 4 ∧
  size_needed (repeat 0 (Z.to_nat (2 ^ 29)))
    ≠ 4 + 8 * Z.of_nat (length (repeat 0 (Z.to_nat (2 ^ 29)))) ∧
  add_free_pba_record 1 (repeat 0 (Z.to_nat (2 ^ 29))) (create [] 0) = None.
Proof.
  assert (Hlen : Z.of_nat (length (repeat 0 (Z.to_nat (2 ^ 29)))) = 2 ^ 29).
  { rewrite repeat_length. apply Z2Nat.id. apply Z.pow_nonneg. lia. }
  pose proof (serialize_pbas_overflow (repeat 0 (Z.to_nat (2 ^ 29)))) as Hover.
  rewrite Hlen in Hover. destruct Hover as [_ Hnone]; [apply Z.leb_le; reflexivity|].
  assert (Hsize : size_needed (repeat 0 (Z.to_nat (2 ^ 29))) = 4).
  { unfold size_needed. rewrite Hlen. reflexivity. }
  split; [exact Hsize|]. split.
  - rewrite Hsize, Hlen. apply Z.lt_neq, Z.ltb_lt. reflexivity.
  - unfold add_free_pba_record. rewrite Hnone. reflexivity.
Qed.

(** ** Round trip *)

(** C2. A pba list of length 0, 1, 2 or 1000, serialised as
    [add_free_pba_record] does and decoded as the visitor of
    [get_free_pba_records] does, comes back as it was. *)
Theorem free_pba_record_round_trip (pbas : list Z) :
  In (length pbas) [0; 1; 2; 1000]%nat →
  Forall is_uint64 pbas →
  ∃ b, serialize_pbas pbas = Some b ∧
       deserialize_pbas b = Some pbas ∧
       (serialize_pbas pbas ≫= deserialize_pbas) = Some pbas.
Proof.
  intros Hlen Hall.
  assert (Hle : (length pbas <= 1000)%nat).
  { cbn [In] in Hlen. destruct Hlen as [<-|[<-|[<-|[<-|[]]]]]; lia. }
  assert (Hfit : 4 + 8 * Z.of_nat (length pbas) < 2 ^ 32).
  { change (2 ^ 32) with 4294967296. lia. }
  exists (record_layout pbas).
  rewrite serialize_pbas_layout by done. cbn [mbind option_bind].
  assert (Hback : deserialize_pbas (record_layout pbas) = Some pbas).
  { apply deserialize_record_layout; [|done]. change (2 ^ 32) with 4294967296. lia. }
  done.
Qed.

Lemma free_pba_record_round_trip_1000 :
  (serialize_pbas (seq_pbas 1000) ≫= deserialize_pbas) = Some (seq_pbas 1000).
Proof.
  destruct (free_pba_record_round_trip (seq_pbas 1000)) as (b & _ & _ & Hrt).
  - right. right. right. left. unfold seq_pbas. by rewrite length_fmap, length_seq.
  - unfold seq_pbas. apply Forall_fmap, Forall_forall. intros n _.
    unfold is_uint64. apply Z.mod_pos_bound. reflexivity.
  - exact Hrt.
Defined.

(** * Further properties of the store *)

(** ** LSN conversions *)

(** X1. [to_store_lsn] and [to_repl_lsn] are inverse to each other on
    the whole 64-bit range, the wrap-around at the ends included, and
    stay within it. *)
Theorem lsn_conversions_inverse x :
  is_int64 x →
  to_repl_lsn (to_store_lsn x) = x ∧ to_store_lsn (to_repl_lsn x) = x ∧
  is_int64 (to_store_lsn x) ∧ is_int64 (to_repl_lsn x).
Proof.
  intros Hx. split; [by apply to_repl_to_store_lsn|].
  split; [|split; apply int64_wrap_range].
  unfold is_int64, to_repl_lsn, to_store_lsn, int64_wrap, min_int64, max_int64 in *.
  replace ((x + 1 + 2 ^ 63) mod 2 ^ 64 - 2 ^ 63 - 1 + 2 ^ 63)
    with ((x + 1 + 2 ^ 63) mod 2 ^ 64 - 1) by lia.
  rewrite Zminus_mod_idemp_l.
  replace (x + 1 + 2 ^ 63 - 1) with (x + 2 ^ 63) by lia.
  rewrite Z.mod_small; lia.
Qed.

Lemma lsn_conversions_inverse_at_ends :
  to_repl_lsn (to_store_lsn min_int64) = min_int64 ∧
  to_store_lsn (to_repl_lsn max_int64) = max_int64 ∧
  to_store_lsn min_int64 = max_int64.
Proof.
  destruct (lsn_conversions_inverse min_int64) as (H1 & _); [by vm_compute|].
  destruct (lsn_conversions_inverse max_int64) as (_ & H2 & _); [by vm_compute|].
  split; [exact H1|]. split; [exact H2 | reflexivity].
Defined.

(** ** The size of a record *)

(** X2. Appending succeeds exactly when the record fits the 32-bit size:
    with [4 + 8 * len < 2^32] the buffer written is the count followed by
    the pbas; at or above [2^32] the narrowed [size_needed] is too small
    for the stores, whatever the LSN and the state. *)
Theorem add_free_pba_record_fits lsn (pbas : list Z) st :
  (4 + 8 * Z.of_nat (length pbas) < 2 ^ 32 →
     serialize_pbas pbas = Some (record_layout pbas) ∧
     size_needed pbas = Z.of_nat (length (record_layout pbas)) ∧
     is_Some (add_free_pba_record lsn pbas st)) ∧
  (2 ^ 32 <= 4 + 8 * Z.of_nat (length pbas) →
     size_needed pbas < 4 + 8 * Z.of_nat (length pbas) ∧
     serialize_pbas pbas = None ∧
     add_free_pba_record lsn pbas st = None).
Proof.
  split.
  - intros Hfit. split; [by apply serialize_pbas_layout|]. split.
    + rewrite size_needed_small, record_layout_length by done. lia.
    + rewrite add_free_pba_record_Some by done. by eexists.
  - intros Hbig. destruct (serialize_pbas_overflow pbas Hbig) as [Hsz Hnone].
    split; [done|]. split; [done|].
    unfold add_free_pba_record. by rewrite Hnone.
Qed.

Lemma add_free_pba_record_fits_at_bound :
  is_Some (add_free_pba_record 1 [1; 2; 3] (create [] 0)) ∧
  add_free_pba_record 1 (repeat 0 (Z.to_nat (2 ^ 29 + 5))) (create [] 0) = None.
Proof.
  destruct (add_free_pba_record_fits 1 [1; 2; 3] (create [] 0)) as [Hfit _].
  destruct (add_free_pba_record_fits 1 (repeat 0 (Z.to_nat (2 ^ 29 + 5)))
              (create [] 0)) as [_ Hbig].
  split.
  - apply Hfit. by vm_compute.
  - apply Hbig. rewrite repeat_length, Z2Nat.id by (by vm_compute).
    by vm_compute.
Defined.

(** ** Decoding *)

Lemma blob_load_Some off n (b : Blob.t) :
  Blob.load off n b = Some (take n (drop off b)) ↔ (off + n <= length b)%nat.
Proof.
  unfold Blob.load. case_decide as Hfit.
  - done.
  - split; [done | lia].
Qed.

Lemma blob_load_is_Some off n (b : Blob.t) :
  is_Some (Blob.load off n b) ↔ (off + n <= length b)%nat.
Proof.
  unfold Blob.load. case_decide as Hfit.
  - split; [done | by eexists].
  - split; [by intros [? ?] | lia].
Qed.

Lemma blob_load_app off n (b extra bs : Blob.t) :
  Blob.load off n b = Some bs → Blob.load off n (b ++ extra) = Some bs.
Proof.
  unfold Blob.load. case_decide as Hfit; [|done]. intros [= <-].
  rewrite decide_True by (rewrite length_app; lia).
  rewrite drop_app_le by lia.
  by rewrite take_app_le by (rewrite length_drop; lia).
Qed.

Lemma read_pbas_is_Some n : ∀ raw_ptr (entry : Blob.t),
  is_Some (read_pbas n raw_ptr entry) ↔
  n = 0%nat ∨ (raw_ptr + 8 * n <= length entry)%nat.
Proof.
  induction n as [|n IH]; intros raw_ptr entry; cbn [read_pbas].
  { split; [by left | by eexists]. }
  unfold Blob.load_u64.
  destruct (Blob.load raw_ptr 8 entry) as [bs|] eqn:Hload; cbn [fmap option_fmap option_map].
  - assert (Hfit : (raw_ptr + 8 <= length entry)%nat).
    { apply blob_load_is_Some. rewrite Hload. by eexists. }
    specialize (IH (raw_ptr + 8)%nat entry).
    destruct (read_pbas n (raw_ptr + 8) entry) as [plist|].
    + split; [|by eexists]. intros _. right.
      destruct IH as [[->|IH] _]; [by eexists | lia | lia].
    + split; [by intros [? ?]|]. intros [?|Hle]; [done|].
      destruct IH as [_ IH]. destruct IH as [? ?]; [right; lia | done].
  - split; [by intros [? ?]|]. intros [?|Hle]; [done|].
    assert (is_Some (Blob.load raw_ptr 8 entry)) as [? ?]
      by (apply blob_load_is_Some; lia).
    congruence.
Qed.

Lemma read_pbas_facts n : ∀ raw_ptr (entry : Blob.t) pbas,
  read_pbas n raw_ptr entry = Some pbas →
  length pbas = n ∧ Forall is_uint64 pbas ∧
  (∀ extra, read_pbas n raw_ptr (entry ++ extra) = Some pbas) ∧
  (n ≠ 0%nat → take (8 * n) (drop raw_ptr entry) = flat_map (le_split 8) pbas).
Proof.
  induction n as [|n IH]; intros raw_ptr entry pbas; cbn [read_pbas].
  { intros [= <-]. split; [done|]. split; [constructor|]. split; done. }
  unfold Blob.load_u64.
  destruct (Blob.load raw_ptr 8 entry) as [bs|] eqn:Hload;
    cbn [fmap option_fmap option_map]; [|done].
  destruct (read_pbas n (raw_ptr + 8) entry) as [plist|] eqn:Hrest; [|done].
  intros [= <-].
  destruct (IH _ _ _ Hrest) as (Hlen & Hall & Hext & Hbytes).
  assert (Hfit : (raw_ptr + 8 <= length entry)%nat).
  { apply blob_load_is_Some. rewrite Hload. by eexists. }
  assert (Hbs : bs = take 8 (drop raw_ptr entry)).
  { apply blob_load_Some in Hfit. congruence. }
  assert (Hbslen : length bs = 8%nat).
  { rewrite Hbs, length_take, length_drop. lia. }
  split; [cbn [length]; by rewrite Hlen|]. split; [|split].
  - constructor; [|done]. unfold is_uint64.
    pose proof (le_combine_bound bs) as Hb. rewrite Hbslen in Hb. exact Hb.
  - intros extra. rewrite (blob_load_app _ _ _ extra _ Hload).
    cbn [fmap option_fmap option_map]. by rewrite Hext.
  - intros _. cbn [flat_map].
    rewrite (split_le_combine' bs 8 Hbslen), Hbs.
    destruct n as [|n'].
    + cbn [read_pbas] in Hrest. injection Hrest as <-. cbn [flat_map].
      by rewrite app_nil_r.
    + rewrite <-Hbytes by done.
      replace (8 * S (S n'))%nat with (8 + 8 * S n')%nat by lia.
      by rewrite <-take_take_drop, drop_drop.
Qed.

Lemma record_count_range (entry : Blob.t) : 0 <= record_count entry < 2 ^ 32.
Proof.
  unfold record_count. pose proof (le_combine_bound (take 4 entry)) as Hb.
  assert (Hlen : (length (take 4 entry) <= 4)%nat) by (rewrite length_take; lia).
  assert (2 ^ (8 * Z.of_nat (length (take 4 entry))) <= 2 ^ 32)
    by (apply Z.pow_le_mono_r; lia).
  lia.
Qed.

Lemma deserialize_pbas_unfold (entry : Blob.t) :
  (4 <= length entry)%nat →
  deserialize_pbas entry = read_pbas (Z.to_nat (record_count entry)) 4 entry.
Proof.
  intros Hlen. unfold deserialize_pbas, Blob.load_u32, record_count.
  pose proof (proj2 (blob_load_Some 0 4 entry) ltac:(lia)) as Hload.
  rewrite drop_0 in Hload. by rewrite Hload.
Qed.

Lemma deserialize_pbas_short (entry : Blob.t) :
  (length entry < 4)%nat → deserialize_pbas entry = None.
Proof.
  intros Hlen. unfold deserialize_pbas, Blob.load_u32, Blob.load.
  by rewrite decide_False by lia.
Qed.

(** X4. Decoding reads within the entry exactly when the entry holds its
    count and that many pbas: at least 4 bytes, and at least
    [4 + 8 * count] bytes for the count in the first four.  A shorter
    entry makes the visitor read outside it. *)
Theorem deserialize_pbas_in_bounds (entry : Blob.t) :
  is_Some (deserialize_pbas entry) ↔
  4 <= Z.of_nat (length entry) ∧
  4 + 8 * record_count entry <= Z.of_nat (length entry).
Proof.
  pose proof (record_count_range entry) as Hc.
  destruct (decide (length entry < 4)%nat) as [Hshort|Hlong].
  - rewrite deserialize_pbas_short by done. split; [by intros [? ?] | lia].
  - rewrite deserialize_pbas_unfold by lia. rewrite read_pbas_is_Some. lia.
Qed.

(** X5. What decoding yields: as many pbas as the count says, each a
    64-bit value, and the same list when bytes follow the record (the
    decoder never looks past the last pba). *)
Theorem deserialize_pbas_yields (entry : Blob.t) pbas :
  deserialize_pbas entry = Some pbas →
  Z.of_nat (length pbas) = record_count entry ∧
  Forall is_uint64 pbas ∧
  ∀ extra, deserialize_pbas (entry ++ extra) = Some pbas.
Proof.
  intros Hdec. pose proof (record_count_range entry) as Hc.
  destruct (decide (length entry < 4)%nat) as [Hshort|Hlong].
  { by rewrite deserialize_pbas_short in Hdec. }
  rewrite deserialize_pbas_unfold in Hdec by lia.
  destruct (read_pbas_facts _ _ _ _ Hdec) as (Hlen & Hall & Hext & _).
  split; [lia|]. split; [done|].
  intros extra. rewrite deserialize_pbas_unfold by (rewrite length_app; lia).
  unfold record_count in *. rewrite take_app_le by lia. apply Hext.
Qed.

Lemma deserialize_pbas_yields_trailing :
  deserialize_pbas (record_layout [7; 8] ++ [Byte.xff; Byte.x01]) = Some [7; 8].
Proof.
  destruct (deserialize_pbas_yields (record_layout [7; 8]) [7; 8]) as (_ & _ & Hext).
  - by vm_compute.
  - apply Hext.
Defined.

(** X6. An entry that decodes and has no byte beyond its last pba is the
    very buffer that appending the decoded list writes: serialising is
    the inverse of decoding on exact-length entries. *)
Theorem serialize_deserialized (entry : Blob.t) pbas :
  deserialize_pbas entry = Some pbas →
  Z.of_nat (length entry) = 4 + 8 * Z.of_nat (length pbas) →
  Z.of_nat (length entry) < 2 ^ 32 →
  serialize_pbas pbas = Some entry.
Proof.
  intros Hdec Hexact Hfit. pose proof (record_count_range entry) as Hc.
  rewrite serialize_pbas_layout by lia. f_equal.
  rewrite deserialize_pbas_unfold in Hdec by lia.
  destruct (read_pbas_facts _ _ _ _ Hdec) as (Hlen & _ & _ & Hbytes).
  unfold record_layout.
  replace (Z.of_nat (length pbas)) with (record_count entry) by lia.
  unfold record_count.
  rewrite (split_le_combine' (take 4 entry) 4) by (rewrite length_take; lia).
  rewrite <-(take_drop 4 entry) at 2. f_equal.
  destruct (decide (Z.to_nat (record_count entry) = 0%nat)) as [Hz|Hnz].
  - rewrite Hz in Hlen. destruct pbas; [|done]. cbn [flat_map].
    symmetry. apply nil_length_inv. rewrite length_drop.
    cbn [length] in Hexact. lia.
  - rewrite <-Hbytes by done. apply take_ge.
    rewrite length_drop. lia.
Qed.

Lemma serialize_deserialized_s1 :
  serialize_pbas [100] = Some (le_split 4 1 ++ le_split 8 100).
Proof.
  apply (serialize_deserialized (le_split 4 1 ++ le_split 8 100) [100]);
    by vm_compute.
Defined.

(** ** Round trip, for every list *)

Lemma record_layout_mod (pbas : list Z) :
  record_layout ((λ p, p mod 2 ^ 64) <$> pbas) = record_layout pbas.
Proof.
  unfold record_layout. rewrite length_fmap. f_equal.
  induction pbas as [|p pbas IH]; [done|].
  rewrite fmap_cons. cbn [flat_map]. rewrite IH. f_equal.
  symmetry. apply (le_split_mod p 8).
Qed.

(** X3. Whatever list the serialiser accepts, of any length, decoding
    the buffer gives the list back with each pba narrowed to 64 bits;
    a list of [uint64_t] values comes back unchanged. *)
Theorem free_pba_record_round_trip_any (pbas : list Z) b :
  serialize_pbas pbas = Some b →
  deserialize_pbas b = Some ((λ p, p mod 2 ^ 64) <$> pbas) ∧
  (Forall is_uint64 pbas → deserialize_pbas b = Some pbas).
Proof.
  intros Hser.
  assert (Hfit : 4 + 8 * Z.of_nat (length pbas) < 2 ^ 32).
  { destruct (decide (4 + 8 * Z.of_nat (length pbas) < 2 ^ 32)) as [|Hbig]; [done|].
    destruct (serialize_pbas_overflow pbas) as [_ Hnone]; [lia | congruence]. }
  split; [|intros Hall; by apply serialize_pbas_decodes].
  rewrite serialize_pbas_layout in Hser by done. injection Hser as <-.
  rewrite <-record_layout_mod. apply deserialize_record_layout.
  - rewrite length_fmap. change (2 ^ 32) with 4294967296 in *. lia.
  - apply Forall_fmap, Forall_forall. intros p _. unfold is_uint64.
    apply Z.mod_pos_bound. reflexivity.
Qed.

Lemma free_pba_record_round_trip_any_narrows :
  deserialize_pbas (record_layout [2 ^ 64 + 5; -1]) = Some [5; 2 ^ 64 - 1].
Proof.
  destruct (free_pba_record_round_trip_any [2 ^ 64 + 5; -1]
              (record_layout [2 ^ 64 + 5; -1])) as [Hdec _].
  - by vm_compute.
  - rewrite Hdec. by vm_compute.
Defined.

(** ** Appending, then replaying *)

Lemma entries_from_head s v ls :
  LogStore.records ls !! s = Some v →
  LogStore.entries_from s ls = (s, v) :: LogStore.entries_from (s + 1) ls.
Proof.
  intros Hv.
  assert (Hfresh : (s, v) ∉ LogStore.entries_from (s + 1) ls).
  { intros [_ Hle]%elem_of_entries_from. lia. }
  apply (StronglySorted_unique_strong key_lt).
  - unfold key_lt. intros; lia.
  - apply entries_from_sorted.
  - apply StronglySorted_cons. split; [|apply entries_from_sorted].
    apply Forall_entries_from. intros k v' _ Hk. unfold key_lt. cbn [fst]. lia.
  - apply NoDup_Permutation.
    + eapply NoDup_fmap_1, entries_from_NoDup.
    + apply NoDup_cons. split; [done|]. eapply NoDup_fmap_1, entries_from_NoDup.
    + intros [k v']. rewrite elem_of_cons, !elem_of_entries_from. split.
      * intros [Hk Hle]. destruct (decide (k = s)) as [->|Hne].
        -- left. congruence.
        -- right. split; [done | lia].
      * intros [[= -> ->] | [Hk Hle]]; (split; [done | lia]).
Qed.

(** X7. A record just appended is what a replay of its own LSN delivers:
    after [add_free_pba_record lsn pbas] at an LSN that held no record,
    the replay of [[lsn, lsn + 1)] calls the callback once, with [lsn]
    and [pbas], whatever the log store holds at other LSNs. *)
Theorem append_then_replay lsn (pbas : list Z) st st' :
  min_int64 < lsn < max_int64 → Forall is_uint64 pbas →
  LogStore.records (m_free_pba_store st) !! to_store_lsn lsn = None →
  add_free_pba_record lsn pbas st = Some st' →
  (∀ A (cb : Z → list Z → A → A) (a : A),
     get_free_pba_records lsn (lsn + 1) cb st' a = Some (cb lsn pbas a)) ∧
  replayed lsn (lsn + 1) st' = Some [(lsn, pbas)].
Proof.
  intros Hlsn Hall Hfresh Hadd.
  assert (Hget : ∀ A (cb : Z → list Z → A → A) (a : A),
            get_free_pba_records lsn (lsn + 1) cb st' a = Some (cb lsn pbas a)).
  { intros A cb a. unfold add_free_pba_record in Hadd.
    destruct (serialize_pbas pbas) as [b|] eqn:Hser; [|done].
    injection Hadd as <-.
    unfold get_free_pba_records, LogStore.foreach.
    cbn [m_free_pba_store].
    rewrite to_store_lsn_pred by lia.
    rewrite (entries_from_head (lsn - 1) b)
      by (cbn [LogStore.write_async LogStore.records]; apply lookup_insert_eq).
    cbn [LogStore.iterate].
    rewrite replay_visitor_at by lia.
    replace (lsn - 1 + 1) with lsn by lia.
    rewrite bool_decide_true by lia.
    rewrite (serialize_pbas_decodes pbas b Hall Hser).
    replace (lsn + 1 - 1) with lsn by lia.
    rewrite int64_wrap_id by (unfold is_int64; lia).
    by rewrite bool_decide_false by lia. }
  split; [exact Hget|]. unfold replayed. by rewrite Hget.
Qed.

Lemma append_then_replay_s6 :
  ∃ st', add_free_pba_record 7 [3840] s6_journal = Some st' ∧
         replayed 7 8 st' = Some [(7, [3840])].
Proof.
  destruct (add_free_pba_record 7 [3840] s6_journal) as [st'|] eqn:Hadd;
    [|by vm_compute in Hadd].
  exists st'. split; [done|].
  apply (append_then_replay 7 [3840] s6_journal st');
    [by vm_compute | | by vm_compute | done].
  repeat constructor; by vm_compute.
Defined.

(** ** What a replay does not depend on *)

Lemma replay_same_entries start_lsn end_lsn st1 st2 :
  LogStore.entries_from (to_store_lsn start_lsn) (m_free_pba_store st1) =
  LogStore.entries_from (to_store_lsn start_lsn) (m_free_pba_store st2) →
  ∀ A (cb : Z → list Z → A → A) (a : A),
    get_free_pba_records start_lsn end_lsn cb st1 a =
    get_free_pba_records start_lsn end_lsn cb st2 a.
Proof.
  intros Heq A cb a. unfold get_free_pba_records, LogStore.foreach.
  by rewrite Heq.
Qed.

(** X8. Appending a record below [start_lsn] changes no replay from
    [start_lsn]: for every end, callback and content of the store, the
    replay after the append is the replay before it. *)
Theorem replay_unaffected_by_earlier_append lsn (pbas : list Z) start_lsn st st' :
  min_int64 < lsn < start_lsn → start_lsn <= max_int64 →
  add_free_pba_record lsn pbas st = Some st' →
  ∀ end_lsn A (cb : Z → list Z → A → A) (a : A),
    get_free_pba_records start_lsn end_lsn cb st' a =
    get_free_pba_records start_lsn end_lsn cb st a.
Proof.
  intros Hlsn Hstart Hadd end_lsn. apply replay_same_entries.
  unfold add_free_pba_record in Hadd.
  destruct (serialize_pbas pbas) as [b|]; [|done]. injection Hadd as <-.
  cbn [m_free_pba_store]. rewrite !to_store_lsn_pred by lia.
  apply entries_from_ext. intros k v.
  cbn [LogStore.write_async LogStore.records].
  destruct (decide (lsn - 1 = k)) as [<-|Hne].
  - split; intros [_ ?]; lia.
  - by rewrite lookup_insert_ne.
Qed.

Lemma replay_unaffected_by_earlier_append_s6 :
  ∃ st', add_free_pba_record 2 [77] s6_journal = Some st' ∧
         replayed 3 6 st' = replayed 3 6 s6_journal.
Proof.
  destruct (add_free_pba_record 2 [77] s6_journal) as [st'|] eqn:Hadd;
    [|by vm_compute in Hadd].
  exists st'. split; [done|]. unfold replayed.
  apply (replay_unaffected_by_earlier_append 2 [77] 3 s6_journal st');
    [by vm_compute | by vm_compute | done].
Defined.

(** X9. Truncating up to an LSN below [start_lsn] changes no replay from
    [start_lsn], for every end, callback and content of the store. *)
Theorem replay_unaffected_by_earlier_truncate lsn start_lsn st :
  min_int64 < lsn < start_lsn → start_lsn <= max_int64 →
  ∀ end_lsn A (cb : Z → list Z → A → A) (a : A),
    get_free_pba_records start_lsn end_lsn cb
      (remove_free_pba_records_upto lsn st) a =
    get_free_pba_records start_lsn end_lsn cb st a.
Proof.
  intros Hlsn Hstart end_lsn. apply replay_same_entries.
  cbn [remove_free_pba_records_upto m_free_pba_store].
  rewrite !to_store_lsn_pred by lia.
  apply entries_from_ext. intros k v. rewrite truncate_lookup.
  case_bool_decide as Hc; [|done]. split; intros [_ ?]; lia.
Qed.

Lemma replay_unaffected_by_earlier_truncate_s6 :
  replayed 3 6 (remove_free_pba_records_upto 2 s6_journal) =
  replayed 3 6 s6_journal.
Proof.
  unfold replayed.
  apply (replay_unaffected_by_earlier_truncate 2 3 s6_journal); by vm_compute.
Defined.

(** X10. With no record at or after the store-LSN of [start_lsn] (an
    empty journal, or a start beyond the last record) the replay returns
    at once: the callback is not called, for any [end_lsn]. *)
Theorem replay_past_last_record start_lsn st :
  (∀ s, to_store_lsn start_lsn <= s →
        LogStore.records (m_free_pba_store st) !! s = None) →
  ∀ end_lsn,
    (∀ A (cb : Z → list Z → A → A) (a : A),
       get_free_pba_records start_lsn end_lsn cb st a = Some a) ∧
    replayed start_lsn end_lsn st = Some [] ∧
    iterated start_lsn end_lsn st = Some [].
Proof.
  intros Hnone end_lsn.
  assert (Hnil : LogStore.entries_from (to_store_lsn start_lsn)
                   (m_free_pba_store st) = []).
  { destruct (LogStore.entries_from _ _) as [|[k v] es] eqn:Hes; [done|].
    assert (Hin : (k, v) ∈ LogStore.entries_from (to_store_lsn start_lsn)
                    (m_free_pba_store st)) by (rewrite Hes; left).
    apply elem_of_entries_from in Hin as [Hk Hle].
    rewrite Hnone in Hk by done. done. }
  unfold replayed, iterated, get_free_pba_records, LogStore.foreach.
  rewrite Hnil. done.
Qed.

Lemma replay_past_last_record_s6 :
  replayed 6 max_int64 s6_journal = Some [] ∧
  replayed min_int64 max_int64 (create [] 0) = Some [].
Proof.
  split.
  - apply (replay_past_last_record 6 s6_journal).
    intros s Hs.
    destruct (LogStore.records (m_free_pba_store s6_journal) !! s) as [v|] eqn:Hv;
      [|done].
    assert (Hlt : s < 5).
    { revert s v Hv Hs. intros s v Hv _. revert s v Hv.
      apply (decide_map_Forall (λ k _, k < 5) (H := λ k _, Z.lt_dec k 5)).
      by vm_compute. }
    assert (Hfive : to_store_lsn 6 = 5) by (by vm_compute).
    lia.
  - apply (replay_past_last_record min_int64 (create [] 0)).
    intros s _. apply lookup_empty.
Defined.

(** ** Replays of adjoining ranges *)

Lemma calls_sorted (l : list (Z * list Z)) :
  StronglySorted Z.lt l.*1 → StronglySorted call_lt l.
Proof.
  induction l as [|x l IH]; intros Hs; [constructor|].
  rewrite fmap_cons in Hs. apply StronglySorted_cons in Hs as [Hall Hs].
  apply StronglySorted_cons. split; [|by apply IH].
  rewrite Forall_forall in Hall. apply Forall_forall. intros y Hy.
  unfold call_lt. apply Hall. by apply list_elem_of_fmap_2.
Qed.

Lemma sorted_calls_NoDup (l : list (Z * list Z)) :
  StronglySorted call_lt l → NoDup l.
Proof.
  induction l as [|x l IH]; intros Hs; [constructor|].
  apply StronglySorted_cons in Hs as [Hall Hs].
  apply NoDup_cons. split; [|by apply IH].
  intros Hin. rewrite Forall_forall in Hall. specialize (Hall x Hin).
  unfold call_lt in Hall. lia.
Qed.

Lemma sorted_calls_ext (l1 l2 : list (Z * list Z)) :
  StronglySorted call_lt l1 → StronglySorted call_lt l2 →
  (∀ x, x ∈ l1 ↔ x ∈ l2) → l1 = l2.
Proof.
  intros H1 H2 Hext.
  apply (StronglySorted_unique_strong call_lt); [|done|done|].
  - unfold call_lt. intros; lia.
  - apply NoDup_Permutation; [by apply sorted_calls_NoDup .. | done].
Qed.

Lemma replay_calls_sorted end_lsn start ls :
  StronglySorted call_lt (in_range end_lsn (LogStore.entries_from start ls)).
Proof. apply calls_sorted, in_range_sorted, entries_from_sorted. Qed.

(** X11. Replaying [[a, b)] and then [[b, c)] from the state the first
    replay left is replaying [[a, c)] in one go: the callback sees the
    same records in the same order and ends in the same state. *)
Theorem replay_ranges_compose a b c st :
  min_int64 < a <= b → b <= c <= max_int64 →
  lsns_in_range st → decodable a c st →
  ∀ A (cb : Z → list Z → A → A) (x : A),
    get_free_pba_records a c cb st x =
    get_free_pba_records a b cb st x ≫= get_free_pba_records b c cb st.
Proof.
  intros Hab Hbc Hr Hd A cb x.
  assert (Hdab : decodable a b st) by (intros s v Hv Hs; apply (Hd s v Hv); lia).
  assert (Hdbc : decodable b c st) by (intros s v Hv Hs; apply (Hd s v Hv); lia).
  rewrite (get_free_pba_records_calls a c), (get_free_pba_records_calls a b)
    by (done || unfold is_int64; lia).
  cbn [mbind option_bind].
  rewrite (get_free_pba_records_calls b c) by (done || unfold is_int64; lia).
  rewrite <-foldl_app. do 2 f_equal.
  apply sorted_calls_ext.
  - apply replay_calls_sorted.
  - apply StronglySorted_app. split; [|split; apply replay_calls_sorted].
    intros [l1 p1] [l2 p2] [H1 _]%elem_of_replay_calls [H2 _]%elem_of_replay_calls.
    unfold call_lt. cbn [fst]. lia.
  - intros [l p]. rewrite elem_of_app, !elem_of_replay_calls. split.
    + intros [Hl Hv]. destruct (decide (l < b)); [left | right]; (split; [lia | done]).
    + intros [[Hl Hv] | [Hl Hv]]; (split; [lia | done]).
Qed.

Lemma replay_ranges_compose_s6 :
  (replayed 1 3 s6_journal ≫= λ calls,
     get_free_pba_records 3 6 (λ lsn pbas acc, acc ++ [(lsn, pbas)])
       s6_journal calls)
  = replayed 1 6 s6_journal.
Proof.
  unfold replayed. symmetry.
  apply (replay_ranges_compose 1 3 6 s6_journal).
  - by vm_compute.
  - by vm_compute.
  - apply s6_journal_in_range.
  - apply s6_journal_decodable.
Defined.

(** X12. A replay of [[start_lsn, end_lsn)] depends on the records of
    that range only: two journals that agree on them give every callback
    the same calls, whatever they hold before and after the range (where
    the records need not even decode). *)
Theorem replay_depends_on_range_only start_lsn end_lsn st1 st2 :
  min_int64 < start_lsn <= max_int64 → is_int64 end_lsn →
  lsns_in_range st1 → lsns_in_range st2 → decodable start_lsn end_lsn st1 →
  (∀ s, start_lsn <= s + 1 < end_lsn →
        LogStore.records (m_free_pba_store st1) !! s =
        LogStore.records (m_free_pba_store st2) !! s) →
  ∀ A (cb : Z → list Z → A → A) (a : A),
    get_free_pba_records start_lsn end_lsn cb st1 a =
    get_free_pba_records start_lsn end_lsn cb st2 a.
Proof.
  intros Hstart Hend Hr1 Hr2 Hd1 Hagree A cb a.
  assert (Hd2 : decodable start_lsn end_lsn st2).
  { intros s v Hv Hs. apply (Hd1 s v); [|done]. by rewrite Hagree. }
  rewrite !get_free_pba_records_calls by done. do 2 f_equal.
  apply sorted_calls_ext; [apply replay_calls_sorted .. |].
  intros [l p]. rewrite !elem_of_replay_calls.
  split; intros [Hl (v & Hv & Hp)]; (split; [done|]); exists v; (split; [|done]).
  - rewrite <-Hagree; [done | lia].
  - rewrite Hagree; [done | lia].
Qed.

Lemma replay_depends_on_range_only_s6 :
  replayed 2 5 s6_journal =
  replayed 2 5 (default s6_journal (add_free_pba_record 9 [90] s6_journal)).
Proof.
  unfold replayed.
  apply (replay_depends_on_range_only 2 5 s6_journal
           (default s6_journal (add_free_pba_record 9 [90] s6_journal))).
  - by vm_compute.
  - by vm_compute.
  - apply s6_journal_in_range.
  - intros s [v Hv]. revert s v Hv.
    apply (decide_map_Forall (λ s _, min_int64 <= s < max_int64)).
    by vm_compute.
  - apply s6_journal_decodable.
  - intros s Hs.
    replace (default s6_journal (add_free_pba_record 9 [90] s6_journal))
      with (HomeStateMachineStore.mk (m_sb s6_journal) (m_sb_in_mem s6_journal)
              (m_sb_lock s6_journal)
              (LogStore.write_async 8 (record_layout [90])
                 (m_free_pba_store s6_journal)) 9)
      by (by vm_compute).
    cbn [m_free_pba_store LogStore.write_async LogStore.records].
    rewrite lookup_insert_ne by lia. done.
Defined.

(** ** Sequences of calls, continued *)

(** X13. No sequence of calls touches the persistent superblock, the
    uuid or the log-store id, and every call that takes the superblock
    lock releases it: the number of readers is the same before and
    after.  In particular [commit_lsn] is never written through to
    [m_sb]. *)
Theorem run_keeps_superblock invalid_lsn ops : ∀ st st',
  run invalid_lsn ops st = Some st' →
  m_sb st' = m_sb st ∧
  home_rs_superblk.uuid (m_sb_in_mem st') = home_rs_superblk.uuid (m_sb_in_mem st) ∧
  home_rs_superblk.free_pba_store_id (m_sb_in_mem st') =
    home_rs_superblk.free_pba_store_id (m_sb_in_mem st) ∧
  SharedMutex.readers (m_sb_lock st') = SharedMutex.readers (m_sb_lock st).
Proof.
  induction ops as [|o ops IH]; intros st st' Hrun.
  { by injection Hrun as <-. }
  cbn [run] in Hrun.
  destruct (step invalid_lsn o st) as [st1|] eqn:Hstep; [|done].
  destruct (IH _ _ Hrun) as (H1 & H2 & H3 & H4).
  rewrite H1, H2, H3, H4. clear IH Hrun H1 H2 H3 H4.
  destruct o as [lsn| |lsn pbas|lsn|]; cbn [step] in Hstep.
  - by injection Hstep as <-.
  - by injection Hstep as <-.
  - unfold add_free_pba_record in Hstep.
    destruct (serialize_pbas pbas); [|done]. by injection Hstep as <-.
  - by injection Hstep as <-.
  - by injection Hstep as <-.
Qed.

Lemma run_keeps_superblock_s6 :
  ∃ st', run (-1) [CommitLsn 5; AddFreePbaRecord 6 [60]; GetLastCommitLsn;
                   FlushFreePbaRecords; RemoveFreePbaRecordsUpto 3]
           s6_journal = Some st' ∧
         home_rs_superblk.commit_lsn (m_sb st') = 0 ∧
         home_rs_superblk.commit_lsn (m_sb_in_mem st') = 5 ∧
         SharedMutex.readers (m_sb_lock st') = 0%nat.
Proof.
  destruct (run (-1) [CommitLsn 5; AddFreePbaRecord 6 [60]; GetLastCommitLsn;
                      FlushFreePbaRecords; RemoveFreePbaRecordsUpto 3]
              s6_journal) as [st'|] eqn:Hrun; [|by vm_compute in Hrun].
  exists st'. split; [done|].
  destruct (run_keeps_superblock _ _ _ _ Hrun) as (Hsb & _ & _ & Hlock).
  rewrite Hsb, Hlock. split; [by vm_compute|]. split; [|by vm_compute].
  assert (Hst : Some st' = Some (default s6_journal
            (run (-1) [CommitLsn 5; AddFreePbaRecord 6 [60]; GetLastCommitLsn;
                       FlushFreePbaRecords; RemoveFreePbaRecordsUpto 3]
               s6_journal))) by (by rewrite Hrun).
  injection Hst as ->. by vm_compute.
Defined.

Lemma run_no_commit_keeps_in_mem invalid_lsn ops : ∀ st st',
  forallb (λ o, negb (is_commit o)) ops = true →
  run invalid_lsn ops st = Some st' → m_sb_in_mem st' = m_sb_in_mem st.
Proof.
  induction ops as [|o ops IH]; intros st st' Hno Hrun.
  { by injection Hrun as <-. }
  cbn [forallb] in Hno. apply andb_prop in Hno as [Ho Hno].
  cbn [run] in Hrun.
  destruct (step invalid_lsn o st) as [st1|] eqn:Hstep; [|done].
  rewrite (IH _ _ Hno Hrun). clear IH Hrun.
  destruct o as [lsn| |lsn pbas|lsn|]; cbn [step is_commit negb] in *; try done.
  - by injection Hstep as <-.
  - unfold add_free_pba_record in Hstep.
    destruct (serialize_pbas pbas); [|done]. by injection Hstep as <-.
  - by injection Hstep as <-.
  - by injection Hstep as <-.
Qed.

(** X14. [get_last_commit_lsn] returns the LSN of the most recent
    [commit_lsn], whatever came before it (a higher LSN included: the
    value is overwritten, not compared) and whatever journal calls came
    after it. *)
Theorem last_commit_lsn_wins invalid_lsn ops lsn tail st st' :
  forallb (λ o, negb (is_commit o)) tail = true →
  run invalid_lsn (ops ++ CommitLsn lsn :: tail) st = Some st' →
  (get_last_commit_lsn st').1 = lsn.
Proof.
  intros Hno Hrun. rewrite run_app in Hrun.
  destruct (run invalid_lsn ops st) as [st0|]; [|done].
  cbn [mbind option_bind run step] in Hrun.
  unfold get_last_commit_lsn. cbn [fst].
  by rewrite (run_no_commit_keeps_in_mem _ _ _ _ Hno Hrun).
Qed.

Lemma last_commit_lsn_wins_lower :
  ∃ st', run (-1) ([CommitLsn 9] ++ CommitLsn 4 :: [AddFreePbaRecord 5 [50]])
           (create [] 0) = Some st' ∧
         (get_last_commit_lsn st').1 = 4.
Proof.
  destruct (run (-1) ([CommitLsn 9] ++ CommitLsn 4 :: [AddFreePbaRecord 5 [50]])
              (create [] 0)) as [st'|] eqn:Hrun; [|by vm_compute in Hrun].
  exists st'. split; [done|].
  by apply (last_commit_lsn_wins (-1) [CommitLsn 9] 4 [AddFreePbaRecord 5 [50]]
              (create [] 0) st').
Defined.

Lemma run_keeps_last_write invalid_lsn ops : ∀ st st',
  forallb (λ o, negb (is_add o) && negb (is_remove o)) ops = true →
  run invalid_lsn ops st = Some st' →
  m_last_write_lsn st' = m_last_write_lsn st.
Proof.
  induction ops as [|o ops IH]; intros st st' Hno Hrun.
  { by injection Hrun as <-. }
  cbn [forallb] in Hno. apply andb_prop in Hno as [Ho Hno].
  cbn [run] in Hrun.
  destruct (step invalid_lsn o st) as [st1|] eqn:Hstep; [|done].
  rewrite (IH _ _ Hno Hrun). clear IH Hrun.
  destruct o as [lsn| |lsn pbas|lsn|];
    cbn [step is_add is_remove negb andb] in *; try done.
  - by injection Hstep as <-.
  - by injection Hstep as <-.
  - by injection Hstep as <-.
Qed.

(** X15. A flush asks the log store for the store-LSN of the most
    recent append, when no truncation came in between, whatever LSNs were
    appended earlier (higher ones included); an append at LSN 0 counts as
    none, and the flush is then asked for the invalid sentinel. *)
Theorem flush_after_append invalid_lsn ops lsn pbas mid st st_end :
  forallb (λ o, negb (is_add o) && negb (is_remove o)) mid = true →
  run invalid_lsn
    (ops ++ AddFreePbaRecord lsn pbas :: mid ++ [FlushFreePbaRecords]) st
    = Some st_end →
  last (LogStore.calls (m_free_pba_store st_end)) =
    Some (LogStore.FlushSync
            (if bool_decide (lsn = 0) then invalid_lsn else to_store_lsn lsn)).
Proof.
  intros Hno Hrun. rewrite run_app in Hrun.
  destruct (run invalid_lsn ops st) as [st0|]; [|done].
  cbn [mbind option_bind run step] in Hrun.
  destruct (add_free_pba_record lsn pbas st0) as [st1|] eqn:Hadd; [|done].
  rewrite run_app in Hrun.
  destruct (run invalid_lsn mid st1) as [st2|] eqn:Hmid; [|done].
  cbn [mbind option_bind run step] in Hrun. injection Hrun as <-.
  assert (Hlast : m_last_write_lsn st2 = lsn).
  { rewrite (run_keeps_last_write _ _ _ _ Hno Hmid).
    unfold add_free_pba_record in Hadd.
    destruct (serialize_pbas pbas); [|done]. by injection Hadd as <-. }
  unfold flush_free_pba_records.
  cbn [m_free_pba_store LogStore.flush_sync LogStore.calls].
  by rewrite Hlast, last_snoc.
Qed.

Lemma flush_after_append_s6 :
  ∃ st1 st2,
    run (-1) ([AddFreePbaRecord 9 [90]] ++ AddFreePbaRecord 3 [30]
                :: [CommitLsn 3] ++ [FlushFreePbaRecords]) (create [] 0)
      = Some st1 ∧
    last (LogStore.calls (m_free_pba_store st1)) = Some (LogStore.FlushSync 2) ∧
    run (-1) ([] ++ AddFreePbaRecord 0 [] :: [] ++ [FlushFreePbaRecords])
      (create [] 0) = Some st2 ∧
    last (LogStore.calls (m_free_pba_store st2)) = Some (LogStore.FlushSync (-1)).
Proof.
  destruct (run (-1) ([AddFreePbaRecord 9 [90]] ++ AddFreePbaRecord 3 [30]
                        :: [CommitLsn 3] ++ [FlushFreePbaRecords]) (create [] 0))
    as [st1|] eqn:Hrun1; [|by vm_compute in Hrun1].
  destruct (run (-1) ([] ++ AddFreePbaRecord 0 [] :: [] ++ [FlushFreePbaRecords])
              (create [] 0))
    as [st2|] eqn:Hrun2; [|by vm_compute in Hrun2].
  exists st1, st2. split; [done|]. split; [|split; [done|]].
  - rewrite (flush_after_append (-1) [AddFreePbaRecord 9 [90]] 3 [30] [CommitLsn 3]
               (create [] 0) st1 eq_refl Hrun1).
    by vm_compute.
  - rewrite (flush_after_append (-1) [] 0 [] [] (create [] 0) st2 eq_refl Hrun2).
    by vm_compute.
Defined.

(** ** What a replay can deliver *)

Lemma step_journal_from invalid_lsn pre o st st' :
  op_ok o → journal_from pre st → step invalid_lsn o st = Some st' →
  journal_from (pre ++ [o]) st'.
Proof.
  intros Hok Hfrom Hstep.
  assert (Hweak : ∀ s v,
            LogStore.records (m_free_pba_store st) !! s = Some v →
            min_int64 <= s < max_int64 ∧
            ∃ pbas, In (AddFreePbaRecord (s + 1) pbas) (pre ++ [o]) ∧
                    deserialize_pbas v = Some pbas).
  { intros s v Hv. destruct (Hfrom s v Hv) as (Hs & pbas & Hin & Hdec).
    split; [done|]. exists pbas. split; [|done]. apply in_or_app. by left. }
  destruct o as [lsn| |lsn pbas|lsn|]; cbn [step] in Hstep.
  - injection Hstep as <-. exact Hweak.
  - injection Hstep as <-. exact Hweak.
  - destruct Hok as [Hlsn Hall]. unfold add_free_pba_record in Hstep.
    destruct (serialize_pbas pbas) as [b|] eqn:Hser; [|done].
    injection Hstep as <-. intros s v.
    cbn [m_free_pba_store LogStore.write_async LogStore.records].
    rewrite to_store_lsn_pred by done.
    destruct (decide (lsn - 1 = s)) as [<-|Hne].
    + rewrite lookup_insert_eq. intros [= <-]. split; [lia|].
      exists pbas. split; [|by apply serialize_pbas_decodes].
      apply in_or_app. right. left. f_equal. lia.
    + rewrite lookup_insert_ne by done. apply Hweak.
  - injection Hstep as <-. intros s v.
    cbn [remove_free_pba_records_upto m_free_pba_store].
    rewrite truncate_lookup. case_bool_decide; [done | apply Hweak].
  - injection Hstep as <-. exact Hweak.
Qed.

Lemma run_journal_from invalid_lsn ops : ∀ pre st st',
  Forall op_ok ops → journal_from pre st → run invalid_lsn ops st = Some st' →
  journal_from (pre ++ ops) st'.
Proof.
  induction ops as [|o ops IH]; intros pre st st' Hok Hfrom Hrun.
  - injection Hrun as <-. by rewrite app_nil_r.
  - apply Forall_cons in Hok as [Ho Hok]. cbn [run] in Hrun.
    destruct (step invalid_lsn o st) as [st1|] eqn:Hstep; [|done].
    replace (pre ++ o :: ops) with ((pre ++ [o]) ++ ops) by (by rewrite <-app_assoc).
    eapply IH; [exact Hok | | exact Hrun].
    by eapply step_journal_from.
Qed.

(** X16. A journal built from a fresh store by calls with typed
    arguments never makes a replay read outside an entry, and a replay
    delivers only what was appended: every [(lsn, pbas)] the callback
    gets lies in the range asked for and is the argument pair of one of
    the [add_free_pba_record] calls. *)
Theorem replay_delivers_appended invalid_lsn ops rs_uuid store_id st
    start_lsn end_lsn :
  Forall op_ok ops →
  run invalid_lsn ops (create rs_uuid store_id) = Some st →
  min_int64 < start_lsn <= max_int64 → is_int64 end_lsn →
  ∃ calls,
    replayed start_lsn end_lsn st = Some calls ∧
    ∀ l p, (l, p) ∈ calls →
           start_lsn <= l < end_lsn ∧ In (AddFreePbaRecord l p) ops.
Proof.
  intros Hok Hrun Hstart Hend.
  assert (Hfrom : journal_from ops st).
  { apply (run_journal_from invalid_lsn ops [] (create rs_uuid store_id));
      [done | | done].
    intros s v Hv. cbn in Hv. by rewrite lookup_empty in Hv. }
  assert (Hr : lsns_in_range st).
  { intros s [v Hv]. by destruct (Hfrom s v Hv). }
  assert (Hd : decodable start_lsn end_lsn st).
  { intros s v Hv _. destruct (Hfrom s v Hv) as (_ & pbas & _ & Hdec).
    by exists pbas. }
  eexists. split.
  - unfold replayed. rewrite get_free_pba_records_calls by done.
    by rewrite foldl_deliver_snoc.
  - intros l p [Hl (v & Hv & Hp)]%elem_of_replay_calls. split; [done|].
    destruct (Hfrom _ _ Hv) as (_ & pbas & Hin & Hdec).
    replace (l - 1 + 1) with l in Hin by lia. congruence.
Qed.

Lemma replay_delivers_appended_s5 :
  ∃ st calls,
    run (-1) [AddFreePbaRecord 999 [6]; AddFreePbaRecord 1000 [7];
              CommitLsn 1000; RemoveFreePbaRecordsUpto 999;
              AddFreePbaRecord 1001 [8]] (create [] 0) = Some st ∧
    replayed 1 2000 st = Some calls ∧
    ∀ l p, (l, p) ∈ calls →
           In (AddFreePbaRecord l p)
             [AddFreePbaRecord 999 [6]; AddFreePbaRecord 1000 [7];
              CommitLsn 1000; RemoveFreePbaRecordsUpto 999;
              AddFreePbaRecord 1001 [8]].
Proof.
  destruct (run (-1) [AddFreePbaRecord 999 [6]; AddFreePbaRecord 1000 [7];
                      CommitLsn 1000; RemoveFreePbaRecordsUpto 999;
                      AddFreePbaRecord 1001 [8]] (create [] 0))
    as [st|] eqn:Hrun; [|by vm_compute in Hrun].
  destruct (replay_delivers_appended (-1)
              [AddFreePbaRecord 999 [6]; AddFreePbaRecord 1000 [7];
               CommitLsn 1000; RemoveFreePbaRecordsUpto 999;
               AddFreePbaRecord 1001 [8]] [] 0 st 1 2000)
    as (calls & Hcalls & Hin);
    [repeat constructor; by vm_compute | done | by vm_compute | by vm_compute |].
  exists st, calls. split; [done|]. split; [done|].
  intros l p Hlp. by destruct (Hin l p Hlp).
Defined.
